(** * Continuous ADC capture: ring buffer, export and trapezoidal filter

    A shallow embedding of [main/continuous_read_main.c] and
    [main/trapfilter.h].  Machine integers are [Z] with their wrap-around
    written out ([size_t] is 32 bits on the ESP32 targets), C arrays are
    lists read and written through bounds-checked accessors that report a
    [fault] instead of the undefined behaviour of C, and the functions
    that work through pointers become state transformers in the [result]
    monad. *)

From Stdlib Require Import ZArith Lia Bool List.
From stdpp Require Import base option list.

Local Open Scope Z_scope.

(** ** Machine integers *)

Definition to_uint16 (x : Z) : Z := x mod 2 ^ 16.
Definition to_uint32 (x : Z) : Z := x mod 2 ^ 32.
Definition to_uint64 (x : Z) : Z := x mod 2 ^ 64.
(** [size_t] of the 32-bit targets. *)
Definition to_size_t (x : Z) : Z := x mod 2 ^ 32.
(** [int] and [int32_t]: two's-complement wrap-around. *)
Definition to_int32 (x : Z) : Z := (x + 2 ^ 31) mod 2 ^ 32 - 2 ^ 31.

Definition INT32_MAX : Z := 2 ^ 31 - 1.
Definition INT32_MIN : Z := - 2 ^ 31.
Definition UINT16_MAX : Z := 2 ^ 16 - 1.

Definition int32_range (x : Z) : Prop := INT32_MIN <= x <= INT32_MAX.
Definition uint16_range (x : Z) : Prop := 0 <= x <= UINT16_MAX.

(** ** Faults and the result monad *)

Inductive array_id : Type :=
| CircBuf      (* circ_buf[] of the acquisition loop *)
| OutBuffer    (* the out_buffer handed to the export *)
| FilterBuffer (* the buffer handed to the filter *).

Inductive fault : Type :=
| OutOfBounds (a : array_id) (i : Z)
| DivisionByZero.

Inductive result (A : Type) : Type :=
| Ok (a : A)
| Fault (f : fault).

Arguments Ok {A} a.
Arguments Fault {A} f.

#[global] Instance result_ret : MRet result := fun A a => Ok a.
#[global] Instance result_bind : MBind result := fun A B k m =>
  match m with
  | Ok a => k a
  | Fault f => Fault f
  end.
#[global] Instance result_fmap : FMap result := fun A B g m =>
  match m with
  | Ok a => Ok (g a)
  | Fault f => Fault f
  end.

(** ** Arrays *)

(** [a[i]] as an rvalue. *)
Definition arr_read (id : array_id) (a : list Z) (i : Z) : result Z :=
  if i <? 0 then Fault (OutOfBounds id i)
  else match a !! Z.to_nat i with
       | Some v => Ok v
       | None => Fault (OutOfBounds id i)
       end.

(** [a[i] = v]. *)
Definition arr_write (id : array_id) (a : list Z) (i : Z) (v : Z)
  : result (list Z) :=
  if (0 <=? i) && (i <? Z.of_nat (length a))
  then Ok (<[Z.to_nat i := v]> a)
  else Fault (OutOfBounds id i).

(** Total read used in statements: the slot's content, [0] out of range. *)
Definition slot (a : list Z) (i : Z) : Z := nth (Z.to_nat i) a 0.

(** [0, 1, ..., n-1] as machine indices. *)
Definition indices (n : Z) : list Z := map Z.of_nat (seq 0 (Z.to_nat n)).

(** * trapfilter.h *)

Module TrapFilter.

Record trap_filter_t : Type := mk_trap_filter {
  filter_value : Z;       (* int32_t *)
  buffer_pos : Z;         (* size_t *)
  samples_processed : Z;  (* size_t *)
  initialized : bool
}.

(** [(pos == 0) ? (buffer_size - 1) : (pos - 1)] *)
Definition step_back (buffer_size pos : Z) : Z :=
  if pos =? 0 then to_size_t (buffer_size - 1) else pos - 1.

(** The body of the [for] loop of [filter_sum_step], run [n] times. *)
Fixpoint sum_loop (n : nat) (buffer : list Z) (buffer_size pos val_sum : Z)
  : result (Z * Z) :=
  match n with
  | O => Ok (val_sum, pos)
  | S n' =>
      let pos' := step_back buffer_size pos in
      v ← arr_read FilterBuffer buffer pos';
      sum_loop n' buffer buffer_size pos' (to_int32 (val_sum + v))
  end.

(** [filter_sum_step]: the sum and the final value of [*pos]. *)
Definition filter_sum_step (buffer : list Z) (buffer_size pos filter_rate : Z)
  : result (Z * Z) :=
  v0 ← arr_read FilterBuffer buffer pos;
  sum_loop (Z.to_nat (to_int32 (filter_rate - 1))) buffer buffer_size pos v0.

(** [trap_filter_init]: four stores through [filter], nothing is checked
    and nothing is returned. *)
Definition trap_filter_init (filter : trap_filter_t) : result trap_filter_t :=
  mret {| filter_value := 0; buffer_pos := 0; samples_processed := 0;
          initialized := false |}.

(** The loops [for (i = 0; i < shift; i++) work_pos = ...]. *)
Definition walk_back (shift : Z) (buffer_size pos : Z) : Z :=
  Nat.iter (Z.to_nat shift) (step_back buffer_size) pos.

Section Shape.

(** The three configuration macros (defaults 64, 32 and 8). *)
Variables TRAP_FILTER_LENGTH TRAP_FILTER_GAP TRAP_FILTER_RATE : Z.

Definition filter_length_shift : Z :=
  to_int32 (to_int32 (TRAP_FILTER_LENGTH - TRAP_FILTER_RATE) + 1).
Definition filter_gap_shift : Z :=
  to_int32 (to_int32 (TRAP_FILTER_GAP - TRAP_FILTER_RATE) + 1).
(** Computed by [trap_filter_step] and never used by it. *)
Definition filter_end_shift : Z :=
  to_int32 (to_int32 (to_int32 (to_int32 (2 * TRAP_FILTER_LENGTH)
                                + TRAP_FILTER_GAP)
                      + to_int32 (2 * TRAP_FILTER_RATE)) - 1).

(** [trap_filter_step]: the returned value and the updated [*filter]. *)
Definition trap_filter_step (filter : trap_filter_t) (circ_buffer : list Z)
    (buffer_size current_write_pos : Z) : result (Z * trap_filter_t) :=
  if negb (initialized filter) then
    '(s, _) ← filter_sum_step circ_buffer buffer_size current_write_pos
                TRAP_FILTER_RATE;
    mret (s, {| filter_value := s; buffer_pos := current_write_pos;
                samples_processed := samples_processed filter;
                initialized := true |})
  else
    let work_pos := current_write_pos in
    '(s1, work_pos) ← filter_sum_step circ_buffer buffer_size work_pos
                        TRAP_FILTER_RATE;
    let v := to_int32 (filter_value filter + s1) in
    let work_pos := walk_back filter_length_shift buffer_size work_pos in
    '(s2, work_pos) ← filter_sum_step circ_buffer buffer_size work_pos
                        TRAP_FILTER_RATE;
    let v := to_int32 (v - s2) in
    let work_pos := walk_back filter_gap_shift buffer_size work_pos in
    '(s3, work_pos) ← filter_sum_step circ_buffer buffer_size work_pos
                        TRAP_FILTER_RATE;
    let v := to_int32 (v - s3) in
    let work_pos := walk_back filter_length_shift buffer_size work_pos in
    '(s4, work_pos) ← filter_sum_step circ_buffer buffer_size work_pos
                        TRAP_FILTER_RATE;
    let v := to_int32 (v + s4) in
    mret (v, {| filter_value := v; buffer_pos := current_write_pos;
                samples_processed := to_size_t (samples_processed filter + 1);
                initialized := true |}).

(** [2 * TRAP_FILTER_LENGTH * TRAP_FILTER_RATE] in [int] arithmetic. *)
Definition effective_length : Z :=
  to_int32 (to_int32 (2 * TRAP_FILTER_LENGTH) * TRAP_FILTER_RATE).

(** [trap_filter_get_normalized]: C's [/] truncates towards zero. *)
Definition trap_filter_get_normalized (filter : trap_filter_t)
  : result (Z * trap_filter_t) :=
  if effective_length =? 0 then Fault DivisionByZero
  else mret (to_int32 (Z.quot (filter_value filter) effective_length), filter).

(** One call of [trap_filter_step] per entry of [calls]: the buffer
    contents and the write position the caller passes at that call. *)
Fixpoint trap_filter_run (filter : trap_filter_t) (buffer_size : Z)
    (calls : list (list Z * Z)) : result trap_filter_t :=
  match calls with
  | [] => mret filter
  | (circ_buffer, wr) :: rest =>
      '(_, filter') ← trap_filter_step filter circ_buffer buffer_size wr;
      trap_filter_run filter' buffer_size rest
  end.

(** *** What one update adds

    The four [R]-sample sums of an update, read directly at their
    distances from the write position, without walking: two added, two
    subtracted. *)

Definition sumZ (l : list Z) : Z := fold_right Z.add 0 l.

(** The [R] samples at [p], [p-1], ..., [p-(R-1)], indices wrapped. *)
Definition rate_sum (buffer : list Z) (buffer_size p : Z) : Z :=
  sumZ (map (fun i => slot buffer ((p - i) mod buffer_size))
            (indices TRAP_FILTER_RATE)).

Definition lobe_offset : Z :=
  (TRAP_FILTER_RATE - 1) + (TRAP_FILTER_LENGTH - TRAP_FILTER_RATE + 1).
Definition gap_offset : Z :=
  (TRAP_FILTER_RATE - 1) + (TRAP_FILTER_GAP - TRAP_FILTER_RATE + 1).

Definition update_increment (buffer : list Z) (buffer_size p : Z) : Z :=
  let p2 := p - lobe_offset in
  let p3 := p2 - gap_offset in
  let p4 := p3 - lobe_offset in
  rate_sum buffer buffer_size p
  - rate_sum buffer buffer_size p2
  - rate_sum buffer buffer_size p3
  + rate_sum buffer buffer_size p4.

End Shape.

End TrapFilter.

(** * continuous_read_main.c *)

Module Capture.

(** The statically allocated data of the acquisition loop. *)
Record acq_state : Type := mk_acq {
  circ_buf : list Z;      (* uint16_t circ_buf[CIRC_BUF_SAMPLES] *)
  circ_buf_wr : Z;        (* volatile size_t *)
  s_voltage_sum : Z;      (* volatile uint64_t *)
  s_sample_count : Z      (* volatile uint32_t *)
}.

(** What the program shows on the outside. *)
Inductive event : Type :=
| LogTriggerDetected
| TaskDelay (ms : Z)
| AdcStop
| AdcStart
| LogCaptured (pre post : Z)
| LogSample (i v : Z).

(** The whole program state: the globals, the notification value of
    [s_task_handle] kept by the kernel, and the events emitted so far. *)
Record system : Type := mk_system {
  acq : acq_state;
  trigger_seen : bool;
  capture_complete : bool;
  notify_value : Z;
  trace : list event
}.

(** The outcome of one [adc_continuous_read]: a frame (the [raw_data] of
    its conversion results, in order), an empty pool, or a driver error. *)
Inductive read_result : Type :=
| ESP_OK (frame : list Z)
| ESP_ERR_TIMEOUT
| ESP_ERR_OTHER.

(** Loop variables of the per-frame [for] loop. *)
Record frame_acc : Type := mk_frame_acc {
  local_wr_pos : Z;
  frame_voltage_sum : Z;
  frame_sample_count : Z
}.

(** What [processing_task] prints once per second. *)
Inductive report : Type :=
| AvgVoltage (average_voltage temp_count temp_wr_pos : Z)
| NoNewSamples (temp_wr_pos : Z).

Section Capacity.

(** The capacity macro (32768 in the source, a power of two). *)
Variable CIRC_BUF_SAMPLES : Z.

Definition CIRC_BUF_MASK : Z := CIRC_BUF_SAMPLES - 1.

(** The capacities the masking is written for. *)
Definition is_pow2 : bool :=
  (0 <? CIRC_BUF_SAMPLES) && (CIRC_BUF_SAMPLES <=? 2 ^ 31)
  && (CIRC_BUF_SAMPLES =? 2 ^ Z.log2 CIRC_BUF_SAMPLES).

(** The calibration service: [do_calibration] and the outcome of
    [adc_cali_raw_to_voltage] ([None] when it does not return ESP_OK). *)
Variable do_calibration : bool.
Variable adc_cali_raw_to_voltage : Z -> option Z.

(** Zero-initialised static storage. *)
Definition acq_init : acq_state :=
  {| circ_buf := replicate (Z.to_nat CIRC_BUF_SAMPLES) 0;
     circ_buf_wr := 0; s_voltage_sum := 0; s_sample_count := 0 |}.

Definition system_init : system :=
  {| acq := acq_init; trigger_seen := false; capture_complete := false;
     notify_value := 0; trace := [] |}.

(** *** The frame loop of [app_main] *)

(** One iteration of [for (i = 0; i < ret_num; i += ...)]. *)
Definition frame_sample (buf : list Z) (a : frame_acc) (raw_data : Z)
  : result (list Z * frame_acc) :=
  buf' ← arr_write CircBuf buf (local_wr_pos a) (to_uint16 raw_data);
  let wr := Z.land (to_size_t (local_wr_pos a + 1)) CIRC_BUF_MASK in
  let count := to_uint32 (frame_sample_count a + 1) in
  let vsum :=
    if do_calibration && (Z.land count 7 =? 0) then
      match adc_cali_raw_to_voltage raw_data with
      | Some voltage_mv =>
          to_uint64 (frame_voltage_sum a + to_uint64 (to_int32 (voltage_mv * 8)))
      | None => frame_voltage_sum a
      end
    else frame_voltage_sum a in
  mret (buf', {| local_wr_pos := wr; frame_voltage_sum := vsum;
                 frame_sample_count := count |}).

Fixpoint frame_loop (frame : list Z) (buf : list Z) (a : frame_acc)
  : result (list Z * frame_acc) :=
  match frame with
  | [] => mret (buf, a)
  | raw_data :: rest =>
      '(buf', a') ← frame_sample buf a raw_data;
      frame_loop rest buf' a'
  end.

(** The [ret == ESP_OK] branch: snapshot the cursor, run the frame, publish. *)
Definition process_frame (st : acq_state) (frame : list Z) : result acq_state :=
  let a0 := {| local_wr_pos := circ_buf_wr st; frame_voltage_sum := 0;
               frame_sample_count := 0 |} in
  '(buf, a) ← frame_loop frame (circ_buf st) a0;
  mret {| circ_buf := buf;
          circ_buf_wr := local_wr_pos a;
          s_voltage_sum := to_uint64 (s_voltage_sum st + frame_voltage_sum a);
          s_sample_count := to_uint32 (s_sample_count st + frame_sample_count a) |}.

(** One iteration of the inner [while (1)] of [app_main]. *)
Definition on_read (st : acq_state) (r : read_result) : result acq_state :=
  match r with
  | ESP_OK frame => process_frame st frame
  | ESP_ERR_TIMEOUT => mret st
  | ESP_ERR_OTHER => mret st
  end.

(** The acquisition loop over the reads it is handed, in arrival order. *)
Fixpoint acquire (st : acq_state) (reads : list read_result) : result acq_state :=
  match reads with
  | [] => mret st
  | r :: rest => st' ← on_read st r; acquire st' rest
  end.

(** The samples the frames of [reads] carry, in arrival order. *)
Fixpoint samples_of (reads : list read_result) : list Z :=
  match reads with
  | [] => []
  | ESP_OK frame :: rest => frame ++ samples_of rest
  | _ :: rest => samples_of rest
  end.

(** The states the acquisition loop can be in. *)
Inductive reachable : acq_state -> Prop :=
| reach_init : reachable acq_init
| reach_read st r st' :
    reachable st -> on_read st r = Ok st' -> reachable st'.

(** *** [processing_task] *)

(** One period of the display task: copy and reset under the lock. *)
Definition processing_task_tick (st : acq_state) : report * acq_state :=
  let temp_sum := s_voltage_sum st in
  let temp_count := s_sample_count st in
  let temp_wr_pos := circ_buf_wr st in
  let st' := {| circ_buf := circ_buf st; circ_buf_wr := circ_buf_wr st;
                s_voltage_sum := 0; s_sample_count := 0 |} in
  if 0 <? temp_count
  then (AvgVoltage (to_uint32 (temp_sum / temp_count)) temp_count temp_wr_pos, st')
  else (NoNewSamples temp_wr_pos, st').

(** *** [export_circular_buffer] *)

(** The copy loop, [n] iterations from index [i]. *)
Fixpoint export_loop (n : nat) (i : Z) (circ : list Z) (start : Z)
    (out_buffer : list Z) : result (list Z) :=
  match n with
  | O => mret out_buffer
  | S n' =>
      v ← arr_read CircBuf circ (Z.land (to_size_t (start + i)) CIRC_BUF_MASK);
      out' ← arr_write OutBuffer out_buffer i v;
      export_loop n' (i + 1) circ start out'
  end.

(** [i < total_samples && i < CIRC_BUF_SAMPLES] bounds the copy. *)
Definition export_circular_buffer (st : acq_state) (out_buffer : list Z)
    (pre_samples total_samples : Z) : result (list Z) :=
  let current_wr := circ_buf_wr st in
  let start := Z.land (to_size_t (current_wr - pre_samples)) CIRC_BUF_MASK in
  export_loop (Z.to_nat (Z.min total_samples CIRC_BUF_SAMPLES)) 0
              (circ_buf st) start out_buffer.

(** *** The interrupt callbacks *)

(** [vTaskNotifyGiveFromISR] of the kernel: the notification value of the
    task goes up by one; [woken] is the kernel's answer in [mustYield]. *)
Definition vTaskNotifyGiveFromISR (woken : bool) (sys : system) : system * bool :=
  ({| acq := acq sys; trigger_seen := trigger_seen sys;
      capture_complete := capture_complete sys;
      notify_value := to_uint32 (notify_value sys + 1);
      trace := trace sys |}, woken).

Definition s_conv_done_cb (woken : bool) (sys : system) : system * bool :=
  vTaskNotifyGiveFromISR woken sys.

Definition s_pool_ovf_cb (woken : bool) (sys : system) : system * bool :=
  vTaskNotifyGiveFromISR woken sys.

(** *** [handle_trigger_capture] *)

(** From the detection of the trigger to the stopped converter:
    [trigger_seen = true], the 100 ms [vTaskDelay] during which the
    acquisition loop goes on with the reads [during_delay], then
    [adc_continuous_stop]. *)
Definition post_trigger_wait (during_delay : list read_result) (sys : system)
  : result system :=
  st ← acquire (acq sys) during_delay;
  mret {| acq := st; trigger_seen := true;
          capture_complete := capture_complete sys;
          notify_value := notify_value sys;
          trace := trace sys ++ [LogTriggerDetected; TaskDelay 100; AdcStop] |}.

(** [for (int i = 0; i < 10 && i < pre + post; i++) ESP_LOGI(...)] *)
Fixpoint log_samples (n : nat) (i : Z) (export_buffer : list Z)
  : result (list event) :=
  match n with
  | O => mret []
  | S n' =>
      v ← arr_read OutBuffer export_buffer i;
      rest ← log_samples n' (i + 1) export_buffer;
      mret (LogSample i v :: rest)
  end.

(** The export half of the handler.  [heap] is what [malloc] finds:
    [None] when it fails, otherwise the content of the fresh block. *)
Definition export_capture (heap : option (Z -> Z)) (sys : system)
    (pre_trigger_samples post_trigger_samples : Z) : result system :=
  let total := to_size_t (pre_trigger_samples + post_trigger_samples) in
  let bytes := to_size_t (total * 2) in
  logged ←
    match heap with
    | None => mret []
    | Some junk =>
        let export_buffer := map junk (indices (bytes / 2)) in
        out ← export_circular_buffer (acq sys) export_buffer
                pre_trigger_samples total;
        samples ← log_samples (Z.to_nat (Z.min 10 total)) 0 out;
        mret (LogCaptured pre_trigger_samples post_trigger_samples :: samples)
    end;
  mret {| acq := acq sys; trigger_seen := false; capture_complete := true;
          notify_value := notify_value sys;
          trace := trace sys ++ logged ++ [AdcStart] |}.

Definition handle_trigger_capture (during_delay : list read_result)
    (heap : option (Z -> Z)) (sys : system)
    (pre_trigger_samples post_trigger_samples : Z) : result system :=
  if trigger_seen sys then mret sys
  else
    stopped ← post_trigger_wait during_delay sys;
    export_capture heap stopped pre_trigger_samples post_trigger_samples.

End Capacity.

End Capture.

(** * Well-formedness predicates used in the statements *)

Import TrapFilter.

(** A buffer as the filter expects it: [buffer_size] elements, all of them
    [uint16_t] values. *)
Definition filter_buffer (buffer : list Z) (buffer_size : Z) : Prop :=
  1 <= buffer_size < 2 ^ 32 /\ Z.of_nat (length buffer) = buffer_size
  /\ Forall uint16_range buffer.

(** The shapes for which the shifts of the code are the distances of the
    specification: no shift is negative and no [int] expression wraps. *)
Definition shape_ok (L G R : Z) : Prop :=
  1 <= R <= INT32_MAX /\ R - 1 <= L <= INT32_MAX /\ R - 1 <= G <= INT32_MAX.

(** The state [trap_filter_init] leaves behind. *)
Definition fresh_filter : trap_filter_t :=
  {| filter_value := 0; buffer_pos := 0; samples_processed := 0;
     initialized := false |}.

(** What the caller passes at each call: a well-formed buffer and a
    position inside it. *)
Definition valid_call (buffer_size : Z) (c : list Z * Z) : Prop :=
  filter_buffer (fst c) buffer_size /\ 0 <= snd c < buffer_size.

Import Capture.

(** The acquisition state as the loop keeps it: the array has its
    [CIRC_BUF_SAMPLES] elements and the cursor is inside it. *)
Definition wf_acq (N : Z) (st : acq_state) : Prop :=
  Z.of_nat (length (circ_buf st)) = N /\ 0 <= circ_buf_wr st < N.

(** The ring as a sequence of single writes, without the frame structure
    and the statistics: slot [wr] takes the sample and the cursor moves on
    modulo the capacity. *)
Definition ring_write (N : Z) (r : list Z * Z) (raw_data : Z) : list Z * Z :=
  (<[Z.to_nat (snd r) := to_uint16 raw_data]> (fst r), (snd r + 1) mod N).

Definition ring_after (N : Z) (buf : list Z) (wr : Z) (samples : list Z)
  : list Z * Z :=
  fold_left (ring_write N) samples (buf, wr).

(** ** Reference notions for the statistics, the main loop and the filter *)

(** What one calibrated sample adds to the voltage sum: eight times the
    millivolts, as an [int] widened to [uint64_t]; nothing when the
    conversion fails. *)
Definition cali_term (adc_cali_raw_to_voltage : Z -> option Z) (raw_data : Z) : Z :=
  match adc_cali_raw_to_voltage raw_data with
  | Some voltage_mv => to_uint64 (to_int32 (voltage_mv * 8))
  | None => 0
  end.

(** The samples of a frame with their position in it, counted from
    [c + 1]. *)
Fixpoint numbered (c : Z) (frame : list Z) : list (Z * Z) :=
  match frame with
  | [] => []
  | x :: rest => (c + 1, x) :: numbered (c + 1) rest
  end.

(** The samples whose position is a multiple of eight. *)
Definition eighth_samples (frame : list Z) : list Z :=
  map snd (filter (fun p : Z * Z => fst p mod 8 = 0) (numbered 0 frame)).

Definition is_frame (r : read_result) : bool :=
  match r with
  | ESP_OK _ => true
  | _ => false
  end.

Definition is_timeout (r : read_result) : bool :=
  match r with
  | ESP_ERR_TIMEOUT => true
  | _ => false
  end.

Definition is_error (r : read_result) : bool :=
  match r with
  | ESP_ERR_OTHER => true
  | _ => false
  end.

(** The inner [while (1)] of [app_main] over the reads it is handed: a
    frame is processed, a driver error is logged and the loop goes on, the
    first [ESP_ERR_TIMEOUT] breaks.  Returns the state, the number of
    errors logged and the reads not consumed. *)
Fixpoint drain (N : Z) (do_calibration : bool)
    (adc_cali_raw_to_voltage : Z -> option Z)
    (st : acq_state) (errors : nat) (reads : list read_result)
  : result (acq_state * nat * list read_result) :=
  match reads with
  | [] => mret (st, errors, [])
  | ESP_OK frame :: rest =>
      st' ← process_frame N do_calibration adc_cali_raw_to_voltage st frame;
      drain N do_calibration adc_cali_raw_to_voltage st' errors rest
  | ESP_ERR_TIMEOUT :: rest => mret (st, errors, rest)
  | ESP_ERR_OTHER :: rest =>
      drain N do_calibration adc_cali_raw_to_voltage st (S errors) rest
  end.







(** * Machine arithmetic *)

Lemma to_int32_id x : int32_range x -> to_int32 x = x.
Proof.
  unfold int32_range, INT32_MIN, INT32_MAX, to_int32. intros H.
  rewrite Z.mod_small; lia.
Qed.

Lemma to_int32_range x : int32_range (to_int32 x).
Proof.
  unfold int32_range, INT32_MIN, INT32_MAX, to_int32.
  pose proof (Z.mod_pos_bound (x + 2 ^ 31) (2 ^ 32)). lia.
Qed.

Lemma to_int32_congr a b : a mod 2 ^ 32 = b mod 2 ^ 32 -> to_int32 a = to_int32 b.
Proof.
  unfold to_int32. intros H.
  rewrite <- (Zplus_mod_idemp_l a), H, Zplus_mod_idemp_l. reflexivity.
Qed.

Lemma to_int32_mod x : to_int32 x mod 2 ^ 32 = x mod 2 ^ 32.
Proof.
  unfold to_int32.
  rewrite <- Zminus_mod_idemp_l, Z.mod_mod by lia.
  rewrite Zminus_mod_idemp_l. f_equal. lia.
Qed.

Lemma to_int32_wraps x : exists k, to_int32 x = x + k * 2 ^ 32.
Proof.
  exists (- ((x + 2 ^ 31) / 2 ^ 32)). unfold to_int32.
  rewrite Z.mod_eq by lia. lia.
Qed.

Lemma to_int32_plus_wraps x k : to_int32 (x + k * 2 ^ 32) = to_int32 x.
Proof. apply to_int32_congr. apply Z_mod_plus_full. Qed.

Lemma to_int32_add_l a b : to_int32 (to_int32 a + b) = to_int32 (a + b).
Proof.
  apply to_int32_congr.
  rewrite <- Zplus_mod_idemp_l, to_int32_mod, Zplus_mod_idemp_l. reflexivity.
Qed.

Lemma to_int32_add_r a b : to_int32 (a + to_int32 b) = to_int32 (a + b).
Proof. rewrite Z.add_comm, to_int32_add_l, Z.add_comm. reflexivity. Qed.

Lemma to_int32_sub_l a b : to_int32 (to_int32 a - b) = to_int32 (a - b).
Proof. unfold Z.sub. apply to_int32_add_l. Qed.

Lemma to_int32_sub_r a b : to_int32 (a - to_int32 b) = to_int32 (a - b).
Proof.
  apply to_int32_congr.
  rewrite <- Zminus_mod_idemp_r, to_int32_mod, Zminus_mod_idemp_r. reflexivity.
Qed.

(** * Arrays *)

Lemma arr_read_ok id (a : list Z) i :
  0 <= i < Z.of_nat (length a) -> arr_read id a i = Ok (slot a i).
Proof.
  intros H. unfold arr_read, slot.
  destruct (Z.ltb_spec i 0); [lia|].
  destruct (lookup_lt_is_Some_2 a (Z.to_nat i)) as [v Hv]; [lia|].
  rewrite Hv. f_equal. symmetry. apply nth_lookup_Some with (d := 0) in Hv.
  exact Hv.
Qed.

Lemma arr_write_ok id (a : list Z) i v :
  0 <= i < Z.of_nat (length a) ->
  arr_write id a i v = Ok (<[Z.to_nat i := v]> a).
Proof.
  intros H. unfold arr_write.
  destruct (Z.leb_spec 0 i); [|lia].
  destruct (Z.ltb_spec i (Z.of_nat (length a))); [|lia]. reflexivity.
Qed.

Lemma slot_insert_eq (a : list Z) i v :
  0 <= i < Z.of_nat (length a) -> slot (<[Z.to_nat i := v]> a) i = v.
Proof.
  intros H. unfold slot. apply nth_lookup_Some with (d := 0).
  apply list_lookup_insert_eq. lia.
Qed.

Lemma slot_insert_ne (a : list Z) i j v :
  0 <= i -> 0 <= j -> i <> j -> slot (<[Z.to_nat i := v]> a) j = slot a j.
Proof.
  intros Hi Hj Hne. unfold slot.
  rewrite !nth_lookup. rewrite list_lookup_insert_ne by lia. reflexivity.
Qed.

Lemma indices_length n : length (indices n) = Z.to_nat n.
Proof. unfold indices. rewrite length_map, length_seq. reflexivity. Qed.

Lemma indices_succ n :
  indices (Z.of_nat (S n)) = 0 :: map Z.succ (indices (Z.of_nat n)).
Proof.
  unfold indices. rewrite !Nat2Z.id. simpl. f_equal.
  rewrite <- seq_shift, !map_map. apply map_ext. intros. lia.
Qed.

Lemma slot_map_indices (f : Z -> Z) n i :
  0 <= i < n -> slot (map f (indices n)) i = f i.
Proof.
  intros H. unfold slot. apply nth_lookup_Some with (d := 0).
  rewrite list_lookup_fmap. unfold indices. rewrite list_lookup_fmap.
  rewrite lookup_seq_lt by lia. cbn [fmap option_fmap option_map].
  f_equal. f_equal. lia.
Qed.

(** * The trapezoidal filter *)

Lemma slot_uint16 buffer i :
  Forall uint16_range buffer -> uint16_range (slot buffer i).
Proof.
  intros H. unfold slot.
  destruct (nth_in_or_default (Z.to_nat i) buffer 0) as [Hin| ->].
  - rewrite Forall_forall in H. apply H. apply list_elem_of_In. exact Hin.
  - unfold uint16_range, UINT16_MAX. lia.
Qed.

Lemma sumZ_uint16_bound (f : Z -> Z) l :
  (forall i, uint16_range (f i)) ->
  0 <= sumZ (map f l) <= UINT16_MAX * Z.of_nat (length l).
Proof.
  intros Hf. induction l as [|x l IH]; simpl; [lia|].
  specialize (Hf x). unfold uint16_range in Hf. lia.
Qed.

Lemma step_back_mod buffer_size pos :
  1 <= buffer_size < 2 ^ 32 -> 0 <= pos < buffer_size ->
  step_back buffer_size pos = (pos - 1) mod buffer_size.
Proof.
  intros Hs Hp. unfold step_back, to_size_t.
  destruct (Z.eqb_spec pos 0) as [->|Hne].
  - rewrite Z.mod_small by lia.
    replace (0 - 1) with (-1 * buffer_size + (buffer_size - 1)) by lia.
    rewrite Z.add_comm, Z_mod_plus_full, Z.mod_small; lia.
  - rewrite Z.mod_small; lia.
Qed.

Lemma walk_back_mod shift buffer_size pos :
  1 <= buffer_size < 2 ^ 32 -> 0 <= pos < buffer_size ->
  walk_back shift buffer_size pos = (pos - Z.max 0 shift) mod buffer_size.
Proof.
  intros Hs Hp. unfold walk_back.
  replace (Z.max 0 shift) with (Z.of_nat (Z.to_nat shift)) by lia.
  induction (Z.to_nat shift) as [|n IH].
  - simpl. rewrite Z.sub_0_r, Z.mod_small; lia.
  - rewrite Nat.iter_succ, IH.
    rewrite step_back_mod by (try apply Z.mod_pos_bound; lia).
    rewrite Zminus_mod_idemp_l. f_equal. lia.
Qed.

Lemma sum_loop_sum n buffer buffer_size : forall pos acc,
  filter_buffer buffer buffer_size -> 0 <= pos < buffer_size ->
  int32_range acc ->
  sum_loop n buffer buffer_size pos acc =
  Ok (to_int32 (acc + sumZ (map (fun i => slot buffer ((pos - 1 - i) mod buffer_size))
                                (indices (Z.of_nat n)))),
      (pos - Z.of_nat n) mod buffer_size).
Proof.
  induction n as [|n IH]; intros pos acc Hb Hp Ha.
  - simpl. rewrite Z.add_0_r, to_int32_id, Z.sub_0_r, Z.mod_small
      by (assumption || lia).
    reflexivity.
  - pose proof Hb as (Hs & Hl & Hu).
    assert (Hp' : 0 <= (pos - 1) mod buffer_size < buffer_size)
      by (apply Z.mod_pos_bound; lia).
    cbn [sum_loop]. rewrite step_back_mod by lia.
    rewrite arr_read_ok by lia. cbn [mbind result_bind].
    rewrite IH by (try apply to_int32_range; assumption).
    rewrite indices_succ. cbn [map sumZ fold_right].
    rewrite to_int32_add_l. f_equal. f_equal.
    + f_equal. rewrite Z.sub_0_r, map_map.
      fold (sumZ (map (fun x => slot buffer ((pos - 1 - Z.succ x) mod buffer_size))
                      (indices (Z.of_nat n)))).
      rewrite <- Z.add_assoc. f_equal. f_equal. f_equal.
      apply map_ext. intros i. f_equal.
      replace ((pos - 1) mod buffer_size - 1 - i)
        with ((pos - 1) mod buffer_size - (1 + i)) by lia.
      rewrite Zminus_mod_idemp_l. f_equal. lia.
    + rewrite Zminus_mod_idemp_l. f_equal. lia.
Qed.

Lemma rate_sum_succ R buffer buffer_size p :
  1 <= R ->
  rate_sum R buffer buffer_size p =
  slot buffer (p mod buffer_size)
  + sumZ (map (fun i => slot buffer ((p - 1 - i) mod buffer_size))
              (indices (R - 1))).
Proof.
  intros HR. unfold rate_sum.
  replace R with (Z.of_nat (S (Z.to_nat (R - 1)))) at 1 by lia.
  rewrite indices_succ. cbn [map sumZ fold_right].
  rewrite Z.sub_0_r, map_map. f_equal.
  replace (Z.of_nat (Z.to_nat (R - 1))) with (R - 1) by lia.
  unfold sumZ. f_equal. apply map_ext. intros i. f_equal. f_equal. lia.
Qed.

Lemma rate_sum_bound R buffer buffer_size p :
  Forall uint16_range buffer -> 0 <= R ->
  0 <= rate_sum R buffer buffer_size p <= UINT16_MAX * R.
Proof.
  intros Hu HR. unfold rate_sum.
  pose proof (sumZ_uint16_bound
                (fun i => slot buffer ((p - i) mod buffer_size))
                (indices R) (fun i => slot_uint16 buffer _ Hu)) as H.
  rewrite indices_length, Z2Nat.id in H by lia. exact H.
Qed.

Lemma rate_sum_mod R buffer buffer_size p :
  rate_sum R buffer buffer_size (p mod buffer_size) =
  rate_sum R buffer buffer_size p.
Proof.
  unfold rate_sum. f_equal. apply map_ext. intros i.
  rewrite Zminus_mod_idemp_l. reflexivity.
Qed.

(** The sum step in closed form, shared by the statements below. *)
Lemma filter_sum_step_eq buffer buffer_size pos R :
  filter_buffer buffer buffer_size -> 0 <= pos < buffer_size ->
  1 <= R <= INT32_MAX ->
  filter_sum_step buffer buffer_size pos R =
  Ok (to_int32 (rate_sum R buffer buffer_size pos),
      (pos - (R - 1)) mod buffer_size).
Proof.
  intros Hb Hp HR. pose proof Hb as (Hs & Hl & Hu).
  unfold filter_sum_step. rewrite arr_read_ok by lia.
  cbn [mbind result_bind].
  rewrite to_int32_id by (unfold int32_range, INT32_MIN, INT32_MAX in *; lia).
  rewrite sum_loop_sum; try assumption.
  - rewrite rate_sum_succ by lia.
    replace (Z.of_nat (Z.to_nat (R - 1))) with (R - 1) by lia.
    rewrite (Z.mod_small pos) by lia. reflexivity.
  - pose proof (slot_uint16 buffer pos Hu) as H.
    unfold uint16_range, UINT16_MAX, int32_range, INT32_MIN, INT32_MAX in *.
    lia.
Qed.

(** C9 (as the code has it): for a buffer of [buffer_size >= 1] samples,
    a position [pos < buffer_size] and a rate [R >= 1], [filter_sum_step]
    leaves the position at [(pos-(R-1)) mod buffer_size] and returns the
    sum of the [R] samples at [pos], [pos-1], ..., [pos-(R-1)], indices
    taken modulo [buffer_size], as its [int32_t] accumulator holds it:
    the exact sum for every rate up to 32768, the sum wrapped to 32 bits
    beyond. *)
Theorem filter_sum_step_correct buffer buffer_size pos R :
  filter_buffer buffer buffer_size -> 0 <= pos < buffer_size ->
  1 <= R <= INT32_MAX ->
  filter_sum_step buffer buffer_size pos R =
    Ok (to_int32 (sumZ (map (fun i => slot buffer ((pos - i) mod buffer_size))
                            (indices R))),
        (pos - (R - 1)) mod buffer_size)
  /\ (R <= 32768 ->
      filter_sum_step buffer buffer_size pos R =
        Ok (sumZ (map (fun i => slot buffer ((pos - i) mod buffer_size))
                      (indices R)),
            (pos - (R - 1)) mod buffer_size)).
Proof.
  intros Hb Hp HR.
  pose proof (filter_sum_step_eq buffer buffer_size pos R Hb Hp HR) as E.
  unfold rate_sum in E. split; [exact E|].
  intros Hsmall. rewrite E. f_equal. f_equal.
  destruct Hb as (_ & _ & Hu).
  pose proof (rate_sum_bound R buffer buffer_size pos Hu ltac:(lia)) as B.
  unfold rate_sum in B. apply to_int32_id.
  unfold int32_range, INT32_MIN, INT32_MAX, UINT16_MAX in *. lia.
Qed.

Lemma filter_sum_step_correct_witness :
  filter_sum_step [10; 20; 30; 40] 4 1 3 = Ok (70, 3).
Proof.
  destruct (filter_sum_step_correct [10; 20; 30; 40] 4 1 3) as [_ H].
  - split; [lia|]. split; [reflexivity|].
    repeat constructor; unfold UINT16_MAX; lia.
  - lia.
  - unfold INT32_MAX. lia.
  - rewrite H by lia. reflexivity.
Defined.

Lemma div_halves x y : 0 <= x -> 2 <= y -> 2 * (x / y) <= x.
Proof.
  intros Hx Hy.
  pose proof (Z.mul_div_le x y ltac:(lia)).
  pose proof (Z.div_pos x y Hx ltac:(lia)). nia.
Qed.

Lemma quot_int32_range a b :
  2 <= Z.abs b -> int32_range a -> int32_range (Z.quot a b).
Proof.
  intros Hb Ha.
  assert (H : 2 * Z.abs (Z.quot a b) <= Z.abs a).
  { rewrite <- Z.quot_abs by lia.
    rewrite Z.quot_div_nonneg by lia.
    apply div_halves; lia. }
  unfold int32_range, INT32_MIN, INT32_MAX in *. lia.
Qed.

(** C8: the normalised output is the running value divided, with C's
    integer division, by the effective length [2*L*R], and the filter
    state, running value included, is the one that was passed in. *)
Theorem trap_filter_get_normalized_correct L R (filter : trap_filter_t) :
  int32_range (2 * L) -> int32_range (2 * L * R) -> 2 * L * R <> 0 ->
  int32_range (filter_value filter) ->
  trap_filter_get_normalized L R filter =
    Ok (Z.quot (filter_value filter) (2 * L * R), filter).
Proof.
  intros H2L H2LR Hnz Hv. unfold trap_filter_get_normalized, effective_length.
  rewrite (to_int32_id (2 * L)), to_int32_id by assumption.
  destruct (Z.eqb_spec (2 * L * R) 0) as [E|_]; [contradiction|].
  rewrite to_int32_id by (apply quot_int32_range; [lia | assumption]).
  reflexivity.
Qed.

Lemma trap_filter_get_normalized_correct_witness :
  trap_filter_get_normalized 64 8
    {| filter_value := -2049; buffer_pos := 5; samples_processed := 7;
       initialized := true |}
  = Ok (-2, {| filter_value := -2049; buffer_pos := 5; samples_processed := 7;
               initialized := true |}).
Proof.
  apply (trap_filter_get_normalized_correct 64 8
           {| filter_value := -2049; buffer_pos := 5; samples_processed := 7;
              initialized := true |});
    unfold int32_range, INT32_MIN, INT32_MAX; simpl; lia.
Defined.

(** The sum step never faults on a well-formed buffer, whatever the rate,
    and hands back a position inside the buffer. *)
Lemma filter_sum_step_total buffer buffer_size pos R :
  filter_buffer buffer buffer_size -> 0 <= pos < buffer_size ->
  exists s pos', filter_sum_step buffer buffer_size pos R = Ok (s, pos')
                 /\ 0 <= pos' < buffer_size.
Proof.
  intros Hb Hp. pose proof Hb as (Hs & Hl & Hu).
  unfold filter_sum_step. rewrite arr_read_ok by lia.
  cbn [mbind result_bind]. rewrite sum_loop_sum; try assumption.
  - eexists _, _. split; [reflexivity|]. apply Z.mod_pos_bound. lia.
  - pose proof (slot_uint16 buffer pos Hu) as H.
    unfold uint16_range, UINT16_MAX, int32_range, INT32_MIN, INT32_MAX in *.
    lia.
Qed.

Lemma walk_back_range shift buffer_size pos :
  1 <= buffer_size < 2 ^ 32 -> 0 <= pos < buffer_size ->
  0 <= walk_back shift buffer_size pos < buffer_size.
Proof.
  intros Hs Hp. rewrite walk_back_mod by assumption.
  apply Z.mod_pos_bound. lia.
Qed.

(** A step never faults on a well-formed buffer, whatever the shape. *)
Lemma trap_filter_step_total L G R filter buffer buffer_size wr :
  filter_buffer buffer buffer_size -> 0 <= wr < buffer_size ->
  exists v filter',
    trap_filter_step L G R filter buffer buffer_size wr = Ok (v, filter')
    /\ filter_value filter' = v /\ initialized filter' = true.
Proof.
  intros Hb Hp. pose proof Hb as (Hs & _).
  unfold trap_filter_step. destruct (initialized filter); cbn [negb].
  - destruct (filter_sum_step_total buffer buffer_size wr R Hb Hp)
      as (s1 & p1 & -> & Hp1).
    cbn [mbind result_bind].
    destruct (filter_sum_step_total buffer buffer_size
                (walk_back (filter_length_shift L R) buffer_size p1) R Hb
                (walk_back_range _ _ _ Hs Hp1)) as (s2 & p2 & -> & Hp2).
    cbn [mbind result_bind].
    destruct (filter_sum_step_total buffer buffer_size
                (walk_back (filter_gap_shift G R) buffer_size p2) R Hb
                (walk_back_range _ _ _ Hs Hp2)) as (s3 & p3 & -> & Hp3).
    cbn [mbind result_bind].
    destruct (filter_sum_step_total buffer buffer_size
                (walk_back (filter_length_shift L R) buffer_size p3) R Hb
                (walk_back_range _ _ _ Hs Hp3)) as (s4 & p4 & -> & Hp4).
    cbn [mbind result_bind mret result_ret].
    eexists _, _. split; [reflexivity|]. split; reflexivity.
  - destruct (filter_sum_step_total buffer buffer_size wr R Hb Hp)
      as (s1 & p1 & -> & Hp1).
    cbn [mbind result_bind mret result_ret].
    eexists _, _. split; [reflexivity|]. split; reflexivity.
Qed.

Lemma filter_length_shift_eq L R :
  1 <= R <= INT32_MAX -> R - 1 <= L <= INT32_MAX ->
  filter_length_shift L R = L - R + 1.
Proof.
  intros HR HL. unfold filter_length_shift, INT32_MAX in *.
  rewrite (to_int32_id (L - R)), to_int32_id;
    unfold int32_range, INT32_MIN, INT32_MAX; lia.
Qed.

Lemma filter_gap_shift_eq G R :
  1 <= R <= INT32_MAX -> R - 1 <= G <= INT32_MAX ->
  filter_gap_shift G R = G - R + 1.
Proof. apply filter_length_shift_eq. Qed.

(** One update adds the four-term increment of the current buffer to the
    running value. *)
Lemma trap_filter_step_update L G R filter buffer buffer_size wr :
  shape_ok L G R -> filter_buffer buffer buffer_size ->
  0 <= wr < buffer_size -> initialized filter = true ->
  trap_filter_step L G R filter buffer buffer_size wr =
  let v := to_int32 (filter_value filter
                     + update_increment L G R buffer buffer_size wr) in
  Ok (v, {| filter_value := v; buffer_pos := wr;
            samples_processed := to_size_t (samples_processed filter + 1);
            initialized := true |}).
Proof.
  intros (HR & HL & HG) Hb Hp Hi. pose proof Hb as (Hs & _).
  assert (Hm : forall x, 0 <= x mod buffer_size < buffer_size)
    by (intros; apply Z.mod_pos_bound; lia).
  unfold trap_filter_step. rewrite Hi. cbn [negb].
  rewrite filter_length_shift_eq, filter_gap_shift_eq by assumption.
  rewrite filter_sum_step_eq by assumption. cbn [mbind result_bind].
  rewrite walk_back_mod by auto.
  rewrite filter_sum_step_eq by auto. cbn [mbind result_bind].
  rewrite walk_back_mod by auto.
  rewrite filter_sum_step_eq by auto. cbn [mbind result_bind].
  rewrite walk_back_mod by auto.
  rewrite filter_sum_step_eq by auto.
  cbn [mbind result_bind mret result_ret].
  rewrite !Z.max_r by lia. cbv zeta.
  set (S1 := rate_sum R buffer buffer_size wr).
  assert (E : forall v S2 S3 S4 S2' S3' S4', S2 = S2' -> S3 = S3' -> S4 = S4' ->
    to_int32 (to_int32 (to_int32 (to_int32 (v + to_int32 S1) - to_int32 S2)
                        - to_int32 S3) + to_int32 S4)
    = to_int32 (v + (S1 - S2' - S3' + S4'))).
  { intros v S2 S3 S4 ? ? ? <- <- <-.
    destruct (to_int32_wraps S1) as [k1 ->].
    destruct (to_int32_wraps S2) as [k2 ->].
    destruct (to_int32_wraps S3) as [k3 ->].
    destruct (to_int32_wraps S4) as [k4 ->].
    destruct (to_int32_wraps (v + (S1 + k1 * 2 ^ 32))) as [j1 ->].
    destruct (to_int32_wraps (v + (S1 + k1 * 2 ^ 32) + j1 * 2 ^ 32
                              - (S2 + k2 * 2 ^ 32))) as [j2 ->].
    destruct (to_int32_wraps (v + (S1 + k1 * 2 ^ 32) + j1 * 2 ^ 32
                              - (S2 + k2 * 2 ^ 32) + j2 * 2 ^ 32
                              - (S3 + k3 * 2 ^ 32))) as [j3 ->].
    rewrite <- (to_int32_plus_wraps (v + (S1 - S2 - S3 + S4))
                  (k1 + j1 - k2 + j2 - k3 + j3 + k4)).
    f_equal. lia. }
  assert (P : forall a b, a mod buffer_size = b mod buffer_size ->
            rate_sum R buffer buffer_size (a mod buffer_size)
            = rate_sum R buffer buffer_size b).
  { intros a b Hab. rewrite Hab. apply rate_sum_mod. }
  unfold update_increment. fold S1.
  erewrite E; [reflexivity | apply P | apply P | apply P];
    unfold lobe_offset, gap_offset;
    repeat (rewrite <- ?Z.sub_add_distr; rewrite Zminus_mod_idemp_l);
    f_equal; lia.
Qed.


Lemma trap_filter_run_updates L G R buffer_size calls : forall filter,
  shape_ok L G R -> initialized filter = true ->
  int32_range (filter_value filter) ->
  Forall (valid_call buffer_size) calls ->
  exists filter',
    trap_filter_run L G R filter buffer_size calls = Ok filter'
    /\ filter_value filter' =
       to_int32 (filter_value filter
                 + sumZ (map (fun c => update_increment L G R (fst c)
                                         buffer_size (snd c)) calls)).
Proof.
  induction calls as [|[b p] calls IH]; intros filter Hshape Hi Hr Hv.
  - exists filter. split; [reflexivity|].
    cbn [map sumZ fold_right]. rewrite Z.add_0_r, to_int32_id; auto.
  - inversion Hv as [|c cs [Hb Hp] Hrest]; subst. cbn [fst snd] in *.
    cbn [trap_filter_run].
    rewrite trap_filter_step_update by assumption.
    cbv zeta. cbn [mbind result_bind].
    edestruct IH as (f' & -> & Hval); try eassumption;
      [reflexivity | apply to_int32_range |].
    exists f'. split; [reflexivity|].
    rewrite Hval. cbn [filter_value map sumZ fold_right fst snd].
    rewrite to_int32_add_l. f_equal. unfold sumZ. lia.
Qed.

(** C6 (as the code has it): [trap_filter_init] checks nothing.  For every
    shape [(L, G, R)] and every buffer, whatever their relation, it
    returns the zeroed, uninitialised state, and the first step on that
    state returns a value. *)
Theorem trap_filter_init_accepts_any_shape L G R filter buffer buffer_size wr :
  filter_buffer buffer buffer_size -> 0 <= wr < buffer_size ->
  trap_filter_init filter = Ok fresh_filter
  /\ exists v filter',
       trap_filter_step L G R fresh_filter buffer buffer_size wr
         = Ok (v, filter')
       /\ filter_value filter' = v /\ initialized filter' = true.
Proof.
  intros Hb Hp. split; [reflexivity|].
  apply trap_filter_step_total; assumption.
Qed.

Lemma trap_filter_init_accepts_any_shape_witness :
  trap_filter_init {| filter_value := 7; buffer_pos := 3;
                      samples_processed := 9; initialized := true |}
    = Ok fresh_filter
  /\ exists v filter',
       trap_filter_step 4 0 8 fresh_filter (replicate 16 5) 16 0
         = Ok (v, filter')
       /\ filter_value filter' = v /\ initialized filter' = true.
Proof.
  apply (trap_filter_init_accepts_any_shape 4 0 8 _ (replicate 16 5) 16 0).
  - split; [lia|]. split; [reflexivity|].
    repeat constructor; unfold UINT16_MAX; lia.
  - lia.
Defined.

(** C6, counterexample: [L = 4 < R = 8], [G = 0], and a 16-sample buffer
    where [2L + G + 2R = 24] samples would be needed.  Construction
    succeeds and the first step returns the sum of eight samples. *)
Lemma trap_filter_init_no_error :
  trap_filter_init fresh_filter = Ok fresh_filter
  /\ trap_filter_step 4 0 8 fresh_filter (replicate 16 5) 16 0
     = Ok (40, {| filter_value := 40; buffer_pos := 0; samples_processed := 0;
                  initialized := true |}).
Proof. split; vm_compute; reflexivity. Qed.

(** * The ring buffer *)

Lemma is_pow2_exp N :
  is_pow2 N = true -> 0 < N <= 2 ^ 31 /\ exists k, 0 <= k <= 31 /\ N = 2 ^ k.
Proof.
  unfold is_pow2. rewrite !andb_true_iff.
  intros [[H0 H1] H2].
  apply Z.ltb_lt in H0. apply Z.leb_le in H1. apply Z.eqb_eq in H2.
  split; [lia|]. exists (Z.log2 N). split; [|exact H2].
  split; [apply Z.log2_nonneg|].
  destruct (Z.le_gt_cases (Z.log2 N) 31) as [Hle|Hgt]; [exact Hle|].
  exfalso. assert (2 ^ 32 <= 2 ^ Z.log2 N) by (apply Z.pow_le_mono_r; lia).
  lia.
Qed.

Lemma mask_mod N x :
  is_pow2 N = true -> Z.land x (CIRC_BUF_MASK N) = x mod N.
Proof.
  intros H. destruct (is_pow2_exp N H) as (_ & k & Hk & ->).
  unfold CIRC_BUF_MASK. rewrite Z.sub_1_r, <- Z.ones_equiv.
  apply Z.land_ones. lia.
Qed.

Lemma size_t_mod N x :
  is_pow2 N = true -> to_size_t x mod N = x mod N.
Proof.
  intros H. destruct (is_pow2_exp N H) as (HN & k & Hk & ->).
  unfold to_size_t. apply Z.mod_mod_divide.
  exists (2 ^ (32 - k)). rewrite <- Z.pow_add_r by lia. f_equal. lia.
Qed.

(** The index expression [(x) & CIRC_BUF_MASK] on [size_t]. *)
Lemma masked_index N x :
  is_pow2 N = true ->
  Z.land (to_size_t x) (CIRC_BUF_MASK N) = x mod N
  /\ 0 <= x mod N < N.
Proof.
  intros H. rewrite mask_mod, size_t_mod by assumption.
  split; [reflexivity|]. apply Z.mod_pos_bound.
  destruct (is_pow2_exp N H); lia.
Qed.

Lemma mod_shift_ne N a d : 0 < N -> 0 < d < N -> (a + d) mod N <> a mod N.
Proof.
  intros HN Hd E.
  assert (H : (a + d - a) mod N = 0).
  { rewrite Zminus_mod, E, Z.sub_diag. apply Zmod_0_l. }
  replace (a + d - a) with d in H by lia.
  rewrite Z.mod_small in H; lia.
Qed.

Section Acquisition.

Variable N : Z.
Hypothesis HN : is_pow2 N = true.
Variable do_calibration : bool.
Variable adc_cali_raw_to_voltage : Z -> option Z.

Local Abbreviation frame_sample := (frame_sample N do_calibration adc_cali_raw_to_voltage).
Local Abbreviation frame_loop := (frame_loop N do_calibration adc_cali_raw_to_voltage).
Local Abbreviation process_frame := (process_frame N do_calibration adc_cali_raw_to_voltage).
Local Abbreviation on_read := (on_read N do_calibration adc_cali_raw_to_voltage).
Local Abbreviation acquire := (acquire N do_calibration adc_cali_raw_to_voltage).

Lemma N_bounds : 0 < N <= 2 ^ 31.
Proof. apply is_pow2_exp. exact HN. Qed.

Lemma ring_write_wf buf wr raw :
  Z.of_nat (length buf) = N -> 0 <= wr < N ->
  Z.of_nat (length (fst (ring_write N (buf, wr) raw))) = N
  /\ 0 <= snd (ring_write N (buf, wr) raw) < N.
Proof.
  intros Hl Hw. cbn [ring_write fst snd]. rewrite length_insert.
  split; [exact Hl|]. apply Z.mod_pos_bound. lia.
Qed.

Lemma ring_after_wf samples : forall buf wr,
  Z.of_nat (length buf) = N -> 0 <= wr < N ->
  Z.of_nat (length (fst (ring_after N buf wr samples))) = N
  /\ 0 <= snd (ring_after N buf wr samples) < N.
Proof.
  unfold ring_after.
  induction samples as [|x l IH]; intros buf wr Hl Hw; cbn [fold_left].
  - cbn [fst snd]. auto.
  - destruct (ring_write_wf buf wr x Hl Hw) as [Hl' Hw'].
    destruct (ring_write N (buf, wr) x) as [buf' wr'] eqn:E.
    cbn [fst snd] in *. apply IH; assumption.
Qed.

Lemma ring_after_snoc buf wr samples x :
  ring_after N buf wr (samples ++ [x]) =
  ring_write N (ring_after N buf wr samples) x.
Proof. unfold ring_after. rewrite fold_left_app. reflexivity. Qed.

Lemma ring_after_app buf wr l1 l2 :
  ring_after N buf wr (l1 ++ l2) =
  ring_after N (fst (ring_after N buf wr l1)) (snd (ring_after N buf wr l1)) l2.
Proof.
  unfold ring_after. rewrite fold_left_app.
  destruct (fold_left (ring_write N) l1 (buf, wr)); reflexivity.
Qed.

(** One iteration of the frame loop is one write of the ring. *)
Lemma frame_sample_ring buf a raw :
  Z.of_nat (length buf) = N -> 0 <= local_wr_pos a < N ->
  exists a',
    frame_sample buf a raw = Ok (fst (ring_write N (buf, local_wr_pos a) raw), a')
    /\ local_wr_pos a' = snd (ring_write N (buf, local_wr_pos a) raw).
Proof.
  intros Hl Hw. pose proof N_bounds as HB.
  unfold Capture.frame_sample. rewrite arr_write_ok by lia.
  cbn [mbind result_bind mret result_ret].
  eexists. split; [reflexivity|]. cbn [local_wr_pos ring_write fst snd].
  apply masked_index. exact HN.
Qed.

Lemma frame_loop_ring frame : forall buf a,
  Z.of_nat (length buf) = N -> 0 <= local_wr_pos a < N ->
  exists a',
    frame_loop frame buf a = Ok (fst (ring_after N buf (local_wr_pos a) frame), a')
    /\ local_wr_pos a' = snd (ring_after N buf (local_wr_pos a) frame).
Proof.
  induction frame as [|x l IH]; intros buf a Hl Hw.
  - exists a. split; reflexivity.
  - cbn [Capture.frame_loop].
    destruct (frame_sample_ring buf a x Hl Hw) as (a1 & -> & Hw1).
    cbn [mbind result_bind].
    destruct (ring_write_wf buf (local_wr_pos a) x Hl Hw) as [Hl' Hw'].
    rewrite <- Hw1 in Hw'.
    destruct (IH _ a1 Hl' Hw') as (a' & -> & Hw2).
    exists a'. unfold ring_after in *. cbn [fold_left].
    rewrite Hw1 in *.
    destruct (ring_write N (buf, local_wr_pos a) x); cbn [fst snd] in *.
    split; [reflexivity | exact Hw2].
Qed.

Lemma process_frame_ring st frame :
  wf_acq N st ->
  exists st',
    process_frame st frame = Ok st'
    /\ (circ_buf st', circ_buf_wr st')
       = ring_after N (circ_buf st) (circ_buf_wr st) frame.
Proof.
  intros [Hl Hw]. unfold Capture.process_frame.
  edestruct (frame_loop_ring frame (circ_buf st)) as (a' & E & Hw');
    [exact Hl | | rewrite E]; [exact Hw|].
  cbn [mbind result_bind mret result_ret local_wr_pos] in *.
  eexists. split; [reflexivity|]. cbn [circ_buf circ_buf_wr].
  rewrite Hw'. destruct (ring_after N (circ_buf st) (circ_buf_wr st) frame).
  reflexivity.
Qed.

Lemma wf_acq_ring st st' samples :
  wf_acq N st ->
  (circ_buf st', circ_buf_wr st')
    = ring_after N (circ_buf st) (circ_buf_wr st) samples ->
  wf_acq N st'.
Proof.
  intros [Hl Hw] E.
  destruct (ring_after_wf samples _ _ Hl Hw) as [Hl' Hw'].
  rewrite <- E in Hl', Hw'. split; assumption.
Qed.

(** The acquisition loop never faults, and what it leaves in the array
    and the cursor is the sequence of single writes of all the samples
    it was handed. *)
Lemma acquire_ring reads : forall st,
  wf_acq N st ->
  exists st',
    acquire st reads = Ok st'
    /\ (circ_buf st', circ_buf_wr st')
       = ring_after N (circ_buf st) (circ_buf_wr st) (samples_of reads).
Proof.
  induction reads as [|r reads IH]; intros st Hwf.
  - exists st. split; reflexivity.
  - cbn [Capture.acquire samples_of].
    destruct r as [frame| |]; cbn [Capture.on_read].
    + destruct (process_frame_ring st frame Hwf) as (st1 & -> & E1).
      cbn [mbind result_bind].
      destruct (IH st1 (wf_acq_ring _ _ _ Hwf E1)) as (st' & -> & E2).
      exists st'. split; [reflexivity|].
      rewrite ring_after_app, <- E1. exact E2.
    + cbn [mbind result_bind mret result_ret]. apply IH. exact Hwf.
    + cbn [mbind result_bind mret result_ret]. apply IH. exact Hwf.
Qed.

(** The content of the ring after [k] single writes from cursor [wr]:
    the write number [m] sits at slot [(wr + m) mod N] as long as fewer
    than [N] writes followed it, and the slots no write reached are as
    before. *)
Lemma ring_after_contents samples : forall buf wr,
  Z.of_nat (length buf) = N -> 0 <= wr < N ->
  let k := Z.of_nat (length samples) in
  snd (ring_after N buf wr samples) = (wr + k) mod N
  /\ (forall m, Z.max 0 (k - N) <= m < k ->
       slot (fst (ring_after N buf wr samples)) ((wr + m) mod N)
       = to_uint16 (nth (Z.to_nat m) samples 0))
  /\ (forall m, k <= m < N ->
       slot (fst (ring_after N buf wr samples)) ((wr + m) mod N)
       = slot buf ((wr + m) mod N)).
Proof.
  pose proof N_bounds as HB.
  induction samples as [|x l IH] using rev_ind; intros buf wr Hl Hw k.
  - subst k. cbn [ring_after fold_left fst snd length].
    rewrite Z.add_0_r, Z.mod_small by lia.
    split; [reflexivity|]. split; [intros m Hm; lia | reflexivity].
  - destruct (IH buf wr Hl Hw) as (Hwr & Hnew & Hold).
    destruct (ring_after_wf l buf wr Hl Hw) as [Hl' Hw'].
    subst k. rewrite ring_after_snoc, length_app. cbn [length].
    set (k := Z.of_nat (length l)) in *.
    replace (Z.of_nat (length l + 1)) with (k + 1) by lia.
    destruct (ring_after N buf wr l) as [b w] eqn:E. cbn [fst snd] in *.
    unfold ring_write. cbn [fst snd]. subst w.
    split; [|split].
    + rewrite Zplus_mod_idemp_l. f_equal. lia.
    + intros m Hm. destruct (Z.eq_dec m k) as [->|Hne].
      * rewrite slot_insert_eq by lia.
        unfold k. rewrite Nat2Z.id, nth_middle. reflexivity.
      * rewrite slot_insert_ne.
        -- rewrite Hnew by lia. f_equal.
           rewrite app_nth1 by (unfold k in *; lia). reflexivity.
        -- lia.
        -- apply Z.mod_pos_bound. lia.
        -- replace (wr + k) with (wr + m + (k - m)) by lia.
           apply mod_shift_ne; lia.
    + intros m Hm. rewrite slot_insert_ne.
      * apply Hold. lia.
      * lia.
      * apply Z.mod_pos_bound. lia.
      * replace (wr + m) with (wr + k + (m - k)) by lia.
        intros E'. symmetry in E'. revert E'. apply mod_shift_ne; lia.
Qed.

End Acquisition.

(** * The export *)

Section Exporter.

Variable N : Z.
Hypothesis HN : is_pow2 N = true.

(** The copy loop in closed form: [n] slots of [out_buffer] from index [i]
    on take the ring's content from [start + i] on, the others keep
    theirs. *)
Lemma export_loop_copy circ start n : forall (i : nat) (out : list Z),
  Z.of_nat (length circ) = N ->
  (i + n <= length out)%nat ->
  export_loop N n (Z.of_nat i) circ start out =
  Ok (take i out
      ++ map (fun j => slot circ ((start + Z.of_nat j) mod N)) (seq i n)
      ++ drop (i + n) out).
Proof.
  induction n as [|n IH]; intros i out Hc Hlen.
  - cbn [export_loop seq map app mret result_ret].
    rewrite Nat.add_0_r, take_drop. reflexivity.
  - cbn [export_loop].
    destruct (masked_index N (start + Z.of_nat i) HN) as [-> Hr].
    rewrite arr_read_ok by lia. cbn [mbind result_bind].
    rewrite arr_write_ok by lia. cbn [mbind result_bind].
    rewrite Nat2Z.id.
    replace (Z.of_nat i + 1) with (Z.of_nat (S i)) by lia.
    rewrite IH by (rewrite ?length_insert; (assumption || lia)).
    f_equal.
    rewrite drop_insert_lt by lia.
    rewrite insert_take_drop by lia.
    set (v := slot circ ((start + Z.of_nat i) mod N)).
    assert (T : take (S i) (take i out ++ v :: drop (S i) out)
                = take i out ++ [v]).
    { replace (S i) with (i + 1)%nat by lia.
      rewrite take_app_add' by (rewrite length_take; lia). reflexivity. }
    rewrite T. cbn [seq map]. rewrite <- app_assoc. cbn [app].
    replace (S i + n)%nat with (i + S n)%nat by lia. reflexivity.
Qed.

(** The copy loop reads [circ_buf] inside its bounds: the only array it
    can overrun is the caller's. *)
Lemma export_loop_circ_buf_safe circ start n : forall i out,
  Z.of_nat (length circ) = N ->
  (exists out', export_loop N n i circ start out = Ok out')
  \/ (exists j, export_loop N n i circ start out = Fault (OutOfBounds OutBuffer j)).
Proof.
  induction n as [|n IH]; intros i out Hc.
  - left. eexists. reflexivity.
  - cbn [export_loop].
    destruct (masked_index N (start + i) HN) as [-> Hr].
    rewrite arr_read_ok by lia. cbn [mbind result_bind].
    unfold arr_write.
    destruct ((0 <=? i) && (i <? Z.of_nat (length out))).
    + cbn [mbind result_bind]. apply IH. exact Hc.
    + right. eexists. reflexivity.
Qed.

Lemma export_start st pre_samples :
  Z.land (to_size_t (circ_buf_wr st - pre_samples)) (CIRC_BUF_MASK N)
  = (circ_buf_wr st - pre_samples) mod N.
Proof. apply masked_index. exact HN. Qed.

(** The export in closed form: the first [min total N] slots of the
    caller's buffer take the window that starts [pre_samples] before the
    cursor, the rest of the caller's buffer is not written. *)
Lemma export_circular_buffer_copy st out pre_samples total_samples :
  wf_acq N st -> 0 <= total_samples ->
  Z.min total_samples N <= Z.of_nat (length out) ->
  export_circular_buffer N st out pre_samples total_samples =
  Ok (map (fun i => slot (circ_buf st)
                      ((circ_buf_wr st - pre_samples + i) mod N))
          (indices (Z.min total_samples N))
      ++ drop (Z.to_nat (Z.min total_samples N)) out).
Proof.
  intros [Hl Hw] Ht Hout. unfold export_circular_buffer.
  rewrite export_start.
  rewrite (export_loop_copy _ _ _ 0%nat out Hl) by lia.
  rewrite take_0, Nat.add_0_l. cbn [app]. f_equal. f_equal.
  unfold indices. rewrite map_map. apply map_ext. intros j.
  rewrite Zplus_mod_idemp_l. reflexivity.
Qed.

End Exporter.

(** C4: a sequence of [k] writes, frame by frame, never faults; every
    write stores its sample at the cursor's slot and moves the cursor on
    under the mask; afterwards the cursor is [k] further modulo [N], the
    last [min k N] samples written sit, newest first, at the slots
    [wr' - 1], [wr' - 2], ... below the cursor (indices under the mask),
    and the other slots are as before. *)
Theorem ring_holds_last_writes N do_cal cali st reads :
  is_pow2 N = true -> wf_acq N st ->
  let samples := samples_of reads in
  let k := Z.of_nat (length samples) in
  (forall buf a raw,
      Z.of_nat (length buf) = N -> 0 <= local_wr_pos a < N ->
      exists a',
        frame_sample N do_cal cali buf a raw
          = Ok (<[Z.to_nat (local_wr_pos a) := to_uint16 raw]> buf, a')
        /\ local_wr_pos a' = Z.land (local_wr_pos a + 1) (CIRC_BUF_MASK N))
  /\ exists st',
    acquire N do_cal cali st reads = Ok st'
    /\ Z.of_nat (length (circ_buf st')) = N
    /\ circ_buf_wr st' = (circ_buf_wr st + k) mod N
    /\ (forall j, 0 <= j < Z.min k N ->
          slot (circ_buf st') ((circ_buf_wr st' - 1 - j) mod N)
          = to_uint16 (nth (Z.to_nat (k - 1 - j)) samples 0))
    /\ (forall j, Z.min k N <= j < N ->
          slot (circ_buf st') ((circ_buf_wr st' - 1 - j) mod N)
          = slot (circ_buf st) ((circ_buf_wr st' - 1 - j) mod N)).
Proof.
  intros HN Hwf samples k. split.
  - intros buf a raw Hl Hw.
    destruct (frame_sample_ring N HN do_cal cali buf a raw Hl Hw) as (a' & E & Hw').
    exists a'. split; [exact E|]. rewrite Hw'. cbn [ring_write snd].
    symmetry. apply mask_mod. exact HN.
  - destruct (acquire_ring N HN do_cal cali reads st Hwf) as (st' & E & R).
    destruct Hwf as [Hl Hw].
    destruct (ring_after_contents N HN samples _ _ Hl Hw) as (Hwr & Hnew & Hold).
    destruct (ring_after_wf N samples _ _ Hl Hw) as [Hl' _].
    fold samples in R. rewrite <- R in Hwr, Hnew, Hold, Hl'.
    cbn [fst snd] in *. fold k in Hwr, Hnew, Hold.
    assert (Hidx : forall j, (circ_buf_wr st' - 1 - j) mod N
                             = (circ_buf_wr st + (k - 1 - j)) mod N).
    { intros j. rewrite Hwr.
      replace ((circ_buf_wr st + k) mod N - 1 - j)
        with ((circ_buf_wr st + k) mod N - (1 + j)) by lia.
      rewrite Zminus_mod_idemp_l. f_equal. lia. }
    exists st'. split; [exact E|]. split; [exact Hl'|]. split; [exact Hwr|].
    split; intros j Hj; rewrite Hidx.
    + apply Hnew. lia.
    + replace ((circ_buf_wr st + (k - 1 - j)) mod N)
        with ((circ_buf_wr st + (k - 1 - j + N)) mod N).
      * apply Hold. lia.
      * replace (circ_buf_wr st + (k - 1 - j + N))
          with (circ_buf_wr st + (k - 1 - j) + 1 * N) by lia.
        apply Z_mod_plus_full.
Qed.

Lemma ring_holds_last_writes_witness :
  exists st',
    acquire 16 false (fun _ => None) (acq_init 16)
      [ESP_OK [0; 1; 2; 3; 4; 5; 6; 7; 8; 9; 10; 11; 12; 13; 14; 15; 16; 17;
               18; 19];
       ESP_ERR_TIMEOUT;
       ESP_OK [100; 200; 70000]] = Ok st'
    /\ circ_buf_wr st' = 7
    /\ slot (circ_buf st') 6 = 4464
    /\ slot (circ_buf st') 7 = 7.
Proof.
  destruct (ring_holds_last_writes 16 false (fun _ => None) (acq_init 16)
              [ESP_OK [0; 1; 2; 3; 4; 5; 6; 7; 8; 9; 10; 11; 12; 13; 14; 15;
                       16; 17; 18; 19];
               ESP_ERR_TIMEOUT;
               ESP_OK [100; 200; 70000]])
    as (_ & st' & E & _ & Hwr & Hnew & _).
  - reflexivity.
  - split; [reflexivity | simpl; lia].
  - exists st'. split; [exact E|]. split; [rewrite Hwr; reflexivity|].
    split.
    + specialize (Hnew 0 ltac:(simpl; lia)). rewrite Hwr in Hnew. exact Hnew.
    + specialize (Hnew 15 ltac:(simpl; lia)). rewrite Hwr in Hnew. exact Hnew.
Defined.

(** C2 (as the code has it): a request for more than [N] samples is not
    refused.  The export returns normally, copies the first [N] samples
    of the window and leaves the rest of the caller's buffer as it
    was. *)
Theorem export_oversize_truncates N st out pre_count post_count :
  is_pow2 N = true -> wf_acq N st ->
  0 <= pre_count -> 0 <= post_count -> N < pre_count + post_count ->
  Z.of_nat (length out) = pre_count + post_count ->
  export_circular_buffer N st out pre_count (pre_count + post_count)
  = Ok (map (fun i => slot (circ_buf st)
                        ((circ_buf_wr st - pre_count + i) mod N))
            (indices N)
        ++ drop (Z.to_nat N) out).
Proof.
  intros HN Hwf Hpre Hpost Hsum Hout.
  rewrite (export_circular_buffer_copy N HN) by (try assumption; lia).
  rewrite Z.min_r by lia. reflexivity.
Qed.

Lemma export_oversize_truncates_witness :
  export_circular_buffer 16
    {| circ_buf := [16; 17; 18; 19; 20; 21; 22; 23; 24; 25; 26; 27; 28; 29;
                    30; 31];
       circ_buf_wr := 0; s_voltage_sum := 0; s_sample_count := 32 |}
    (replicate 20 999) 4 (4 + 16)
  = Ok [28; 29; 30; 31; 16; 17; 18; 19; 20; 21; 22; 23; 24; 25; 26; 27;
        999; 999; 999; 999].
Proof.
  rewrite (export_oversize_truncates 16 _ (replicate 20 999) 4 16).
  - reflexivity.
  - reflexivity.
  - split; [reflexivity | simpl; lia].
  - lia.
  - lia.
  - lia.
  - reflexivity.
Defined.

(** C2, counterexample: capacity 16, a request for 4 + 16 = 20 samples.
    The export does not fail; it returns the caller's 20-slot buffer with
    16 samples copied and the last 4 slots untouched. *)
Lemma export_oversize_not_rejected :
  export_circular_buffer 16
    {| circ_buf := [16; 17; 18; 19; 20; 21; 22; 23; 24; 25; 26; 27; 28; 29;
                    30; 31];
       circ_buf_wr := 0; s_voltage_sum := 0; s_sample_count := 32 |}
    (replicate 20 999) 4 20
  = Ok [28; 29; 30; 31; 16; 17; 18; 19; 20; 21; 22; 23; 24; 25; 26; 27;
        999; 999; 999; 999].
Proof. vm_compute. reflexivity. Qed.

(** * The cursor invariant *)

Lemma acq_init_wf N : is_pow2 N = true -> wf_acq N (acq_init N).
Proof.
  intros HN. destruct (is_pow2_exp N HN) as [HB _].
  unfold wf_acq, acq_init. cbn [circ_buf circ_buf_wr].
  rewrite length_replicate. lia.
Qed.

Lemma on_read_wf N do_cal cali st r :
  is_pow2 N = true -> wf_acq N st ->
  exists st', on_read N do_cal cali st r = Ok st' /\ wf_acq N st'.
Proof.
  intros HN Hwf. destruct r as [frame| |]; cbn [on_read].
  - destruct (process_frame_ring N HN do_cal cali st frame Hwf) as (st' & E & R).
    exists st'. split; [exact E|]. eapply wf_acq_ring; eassumption.
  - exists st. split; [reflexivity | exact Hwf].
  - exists st. split; [reflexivity | exact Hwf].
Qed.

Lemma reachable_wf N do_cal cali st :
  is_pow2 N = true -> reachable N do_cal cali st -> wf_acq N st.
Proof.
  intros HN Hr. induction Hr as [|st r st' Hr IH Hstep].
  - apply acq_init_wf. exact HN.
  - destruct (on_read_wf N do_cal cali st r HN IH) as (st1 & E & Hwf).
    rewrite E in Hstep. injection Hstep as <-. exact Hwf.
Qed.

(** C10: in every state the acquisition loop can reach, the published
    cursor is strictly below [CIRC_BUF_SAMPLES] and the array has its
    [CIRC_BUF_SAMPLES] elements; from such a state the frame loop runs
    any frame without leaving [circ_buf] and publishes a cursor that is
    again below the capacity, and the export, whatever it is asked for,
    never indexes [circ_buf] out of bounds. *)
Theorem circ_buf_accesses_in_bounds N do_cal cali st :
  is_pow2 N = true -> reachable N do_cal cali st ->
  (Z.of_nat (length (circ_buf st)) = N /\ 0 <= circ_buf_wr st < N)
  /\ (forall r, exists st',
         on_read N do_cal cali st r = Ok st'
         /\ 0 <= circ_buf_wr st' < N
         /\ reachable N do_cal cali st')
  /\ (forall out pre_samples total_samples i,
         export_circular_buffer N st out pre_samples total_samples
         <> Fault (OutOfBounds CircBuf i)).
Proof.
  intros HN Hr. pose proof (reachable_wf N do_cal cali st HN Hr) as Hwf.
  split; [exact Hwf|]. split.
  - intros r. destruct (on_read_wf N do_cal cali st r HN Hwf) as (st' & E & Hwf').
    exists st'. split; [exact E|]. split; [apply Hwf'|].
    eapply reach_read; eassumption.
  - intros out pre total i. unfold export_circular_buffer.
    destruct (export_loop_circ_buf_safe N HN (circ_buf st)
                (Z.land (to_size_t (circ_buf_wr st - pre)) (CIRC_BUF_MASK N))
                (Z.to_nat (Z.min total N)) 0 out (proj1 Hwf))
      as [[out' ->] | [j ->]]; discriminate.
Qed.

Lemma circ_buf_accesses_in_bounds_witness :
  (Z.of_nat (length (circ_buf (acq_init 16))) = 16
   /\ 0 <= circ_buf_wr (acq_init 16) < 16)
  /\ (forall r, exists st',
         on_read 16 false (fun _ => None) (acq_init 16) r = Ok st'
         /\ 0 <= circ_buf_wr st' < 16
         /\ reachable 16 false (fun _ => None) st')
  /\ (forall out pre_samples total_samples i,
         export_circular_buffer 16 (acq_init 16) out pre_samples total_samples
         <> Fault (OutOfBounds CircBuf i)).
Proof.
  apply (circ_buf_accesses_in_bounds 16 false (fun _ => None) (acq_init 16)).
  - reflexivity.
  - apply reach_init.
Defined.

(** * The trigger handler and the callbacks *)

Lemma log_samples_ok n : forall (i : nat) (export_buffer : list Z),
  (i + n <= length export_buffer)%nat ->
  exists logged, log_samples n (Z.of_nat i) export_buffer = Ok logged.
Proof.
  induction n as [|n IH]; intros i b Hlen.
  - eexists. reflexivity.
  - cbn [log_samples]. rewrite arr_read_ok by lia.
    cbn [mbind result_bind].
    replace (Z.of_nat i + 1) with (Z.of_nat (S i)) by lia.
    destruct (IH (S i) b ltac:(lia)) as [rest ->].
    cbn [mbind result_bind mret result_ret]. eexists. reflexivity.
Qed.

(** C5 (as the code has it): between the detection of the trigger and the
    export the handler waits for a fixed 100 ms task delay.  The samples
    ingested in between are the ones the acquisition loop was handed
    during that delay, whatever the configured post-trigger count is: the
    state the export reads is [acquire] over those reads, and the cursor
    has moved by their number. *)
Theorem post_capture_is_time_driven N do_cal cali during_delay heap sys
    pre_trigger_samples post_trigger_samples :
  is_pow2 N = true -> wf_acq N (acq sys) -> trigger_seen sys = false ->
  0 <= pre_trigger_samples -> 0 <= post_trigger_samples ->
  pre_trigger_samples + post_trigger_samples < 2 ^ 31 ->
  exists st' logged,
    acquire N do_cal cali (acq sys) during_delay = Ok st'
    /\ circ_buf_wr st'
       = (circ_buf_wr (acq sys)
          + Z.of_nat (length (samples_of during_delay))) mod N
    /\ handle_trigger_capture N do_cal cali during_delay heap sys
         pre_trigger_samples post_trigger_samples
       = Ok {| acq := st'; trigger_seen := false; capture_complete := true;
               notify_value := notify_value sys;
               trace := (trace sys
                         ++ [LogTriggerDetected; TaskDelay 100; AdcStop])
                        ++ logged ++ [AdcStart] |}.
Proof.
  intros HN Hwf Hts Hpre Hpost Hsum.
  destruct (acquire_ring N HN do_cal cali during_delay (acq sys) Hwf)
    as (st' & E & R).
  pose proof (wf_acq_ring N _ _ _ Hwf R) as Hwf'.
  destruct Hwf as [Hl Hw].
  destruct (ring_after_contents N HN (samples_of during_delay) _ _ Hl Hw)
    as (Hwr & _ & _).
  rewrite <- R in Hwr. cbn [snd] in Hwr.
  unfold handle_trigger_capture, post_trigger_wait. rewrite Hts, E.
  cbn [mbind result_bind mret result_ret]. unfold export_capture.
  cbn [acq trace notify_value].
  set (total := to_size_t (pre_trigger_samples + post_trigger_samples)).
  assert (Htotal : total = pre_trigger_samples + post_trigger_samples).
  { unfold total, to_size_t. apply Z.mod_small. lia. }
  assert (Hbytes : to_size_t (total * 2) / 2 = total).
  { unfold to_size_t. rewrite Z.mod_small by lia. apply Z.div_mul. lia. }
  destruct heap as [junk|].
  - rewrite Hbytes.
    rewrite (export_circular_buffer_copy N HN);
      [ | exact Hwf' | lia
        | rewrite length_map, indices_length; lia ].
    cbn [mbind result_bind].
    match goal with
    | |- context [log_samples ?n 0 ?b] =>
        destruct (log_samples_ok n 0%nat b) as [logged Hlog]
    end.
    { rewrite length_app, length_map, indices_length, length_drop,
        length_map, indices_length. lia. }
    change (Z.of_nat 0) with 0 in Hlog. rewrite Hlog.
    cbn [mbind result_bind mret result_ret].
    eexists st', _. split; [reflexivity|]. split; [exact Hwr | reflexivity].
  - cbn [mbind result_bind mret result_ret].
    exists st', []. split; [reflexivity|]. split; [exact Hwr | reflexivity].
Qed.

Lemma post_capture_is_time_driven_witness :
  exists st' logged,
    acquire 16 false (fun _ => None) (acq (system_init 16)) [ESP_OK [1; 2]]
      = Ok st'
    /\ circ_buf_wr st' = 2
    /\ handle_trigger_capture 16 false (fun _ => None) [ESP_OK [1; 2]]
         (Some (fun _ => 999)) (system_init 16) 4 4
       = Ok {| acq := st'; trigger_seen := false; capture_complete := true;
               notify_value := 0;
               trace := [LogTriggerDetected; TaskDelay 100; AdcStop]
                        ++ logged ++ [AdcStart] |}.
Proof.
  destruct (post_capture_is_time_driven 16 false (fun _ => None)
              [ESP_OK [1; 2]] (Some (fun _ => 999)) (system_init 16) 4 4)
    as (st' & logged & E & Hwr & H).
  - reflexivity.
  - split; [reflexivity | simpl; lia].
  - reflexivity.
  - lia.
  - lia.
  - lia.
  - exists st', logged. split; [exact E|]. split; [exact Hwr | exact H].
Defined.

(** C5, counterexample: capacity 16, a post-trigger count of 4, and a
    frame of two samples arriving while the handler sleeps.  The export
    runs and the capture completes with two samples ingested since the
    trigger ([s_sample_count] goes from 0 to 2, the cursor from 0 to 2);
    with a post-trigger count of 1 the same two samples are ingested. *)
Lemma post_capture_ignores_post_count :
  handle_trigger_capture 16 false (fun _ => None) [ESP_OK [1; 2]]
    (Some (fun _ => 999)) (system_init 16) 4 4
  = Ok {| acq := {| circ_buf := [1; 2; 0; 0; 0; 0; 0; 0; 0; 0; 0; 0; 0; 0; 0; 0];
                    circ_buf_wr := 2; s_voltage_sum := 0;
                    s_sample_count := 2 |};
          trigger_seen := false; capture_complete := true; notify_value := 0;
          trace := [LogTriggerDetected; TaskDelay 100; AdcStop;
                    LogCaptured 4 4;
                    LogSample 0 0; LogSample 1 0; LogSample 2 1; LogSample 3 2;
                    LogSample 4 0; LogSample 5 0; LogSample 6 0; LogSample 7 0;
                    AdcStart] |}
  /\ acq <$> handle_trigger_capture 16 false (fun _ => None) [ESP_OK [1; 2]]
               (Some (fun _ => 999)) (system_init 16) 4 1
     = Ok {| circ_buf := [1; 2; 0; 0; 0; 0; 0; 0; 0; 0; 0; 0; 0; 0; 0; 0];
             circ_buf_wr := 2; s_voltage_sum := 0; s_sample_count := 2 |}.
Proof. split; vm_compute; reflexivity. Qed.

(** C7 (as the code has it): the pool-overflow callback is the
    conversion-done callback.  It gives the same notification to the same
    task and returns the same answer; it leaves every counter, the ring
    and the flags as they are, so the display task reports what it would
    have reported without the overflow. *)
Theorem pool_overflow_is_a_plain_wakeup woken sys :
  s_pool_ovf_cb woken sys = s_conv_done_cb woken sys
  /\ notify_value (fst (s_pool_ovf_cb woken sys))
     = to_uint32 (notify_value sys + 1)
  /\ acq (fst (s_pool_ovf_cb woken sys)) = acq sys
  /\ trigger_seen (fst (s_pool_ovf_cb woken sys)) = trigger_seen sys
  /\ capture_complete (fst (s_pool_ovf_cb woken sys)) = capture_complete sys
  /\ trace (fst (s_pool_ovf_cb woken sys)) = trace sys
  /\ processing_task_tick (acq (fst (s_pool_ovf_cb woken sys)))
     = processing_task_tick (acq sys).
Proof. repeat split; reflexivity. Qed.

(** C7, counterexample: from the initial state an overflow notification
    and a data-ready notification lead to the same state and the same
    return value, and the report of the display task after the overflow
    is the one of an idle second. *)
Lemma pool_overflow_not_counted :
  s_pool_ovf_cb false (system_init 16) = s_conv_done_cb false (system_init 16)
  /\ fst (processing_task_tick (acq (fst (s_pool_ovf_cb false (system_init 16)))))
     = NoNewSamples 0.
Proof. split; vm_compute; reflexivity. Qed.

(** * Acquisition followed by export *)

(** The capacity and the filter shape the source is built with. *)
Example source_capacity : is_pow2 32768 = true /\ CIRC_BUF_MASK 32768 = 32767.
Proof. split; reflexivity. Qed.

Example default_shape :
  shape_ok 64 32 8 /\ filter_length_shift 64 8 = 57
  /\ filter_gap_shift 32 8 = 25 /\ filter_end_shift 64 32 8 = 175
  /\ effective_length 64 8 = 1024.
Proof.
  split; [unfold shape_ok, INT32_MAX; lia|]. repeat split; reflexivity.
Qed.

(** Capacity 16 after the 32 writes [0 .. 31]: the cursor is back at 0 and
    an export of 4 + 4 samples returns the four newest samples followed
    by the four oldest ones still in the ring. *)
Example export_after_two_laps :
  (st ← acquire 16 false (fun _ => None) (acq_init 16)
          [ESP_OK [0; 1; 2; 3; 4; 5; 6; 7; 8; 9; 10; 11; 12; 13; 14; 15];
           ESP_OK [16; 17; 18; 19; 20; 21; 22; 23; 24; 25; 26; 27; 28; 29;
                   30; 31]];
   out ← export_circular_buffer 16 st (replicate 8 0) 4 8;
   mret (circ_buf_wr st, out))
  = Ok (0, [28; 29; 30; 31; 16; 17; 18; 19]).
Proof. vm_compute. reflexivity. Qed.

(** The frame loop at the source's capacity: the cursor wraps from 32767
    to 0, and the sample is stored as a [uint16_t]. *)
Example frame_sample_wraps :
  local_wr_pos
    <$> (snd <$> frame_sample 32768 false (fun _ => None)
                   (replicate (Z.to_nat 32768) 0)
                   {| local_wr_pos := 32767; frame_voltage_sum := 0;
                      frame_sample_count := 0 |} 70000)
  = Ok 0.
Proof. vm_compute. reflexivity. Qed.

(** * The statistics of the acquisition loop *)

Lemma bind_ok {A B} (m : result A) (k : A -> result B) b :
  (x ← m; k x) = Ok b -> exists a, m = Ok a /\ k a = Ok b.
Proof. destruct m as [a|f]; cbn; [eauto | discriminate]. Qed.

Lemma land_7 x : Z.land x 7 = x mod 8.
Proof. change 7 with (Z.ones 3). apply Z.land_ones. lia. Qed.

Lemma uint32_mod_8 x : to_uint32 x mod 8 = x mod 8.
Proof.
  unfold to_uint32. apply Z.mod_mod_divide. exists (2 ^ 29). reflexivity.
Qed.

Lemma to_uint64_congr a b : a mod 2 ^ 64 = b mod 2 ^ 64 -> to_uint64 a = to_uint64 b.
Proof. intros H. exact H. Qed.

Section Statistics.

Variable N : Z.
Variable do_calibration : bool.
Variable adc_cali_raw_to_voltage : Z -> option Z.

Local Abbreviation term := (cali_term adc_cali_raw_to_voltage).

(** The calibrated part of a frame whose first sample has position
    [c + 1]. *)
Local Abbreviation calibrated c frame :=
  (sumZ (map term (map snd (filter (fun p : Z * Z => fst p mod 8 = 0)
                                   (numbered c frame))))).

Lemma frame_sample_stats buf a raw buf' a' c :
  frame_sample N do_calibration adc_cali_raw_to_voltage buf a raw = Ok (buf', a') ->
  frame_sample_count a = to_uint32 c ->
  frame_sample_count a' = to_uint32 (c + 1)
  /\ frame_voltage_sum a' mod 2 ^ 64
     = (frame_voltage_sum a
        + (if do_calibration then calibrated c [raw] else 0)) mod 2 ^ 64.
Proof.
  unfold frame_sample. intros H Hc.
  apply bind_ok in H as (b & _ & H). cbn [mret result_ret] in H.
  injection H as _ <-. cbn [frame_sample_count frame_voltage_sum].
  assert (Hcount : to_uint32 (frame_sample_count a + 1) = to_uint32 (c + 1)).
  { rewrite Hc. unfold to_uint32. apply Zplus_mod_idemp_l. }
  split; [exact Hcount|].
  rewrite Hcount, land_7, uint32_mod_8. cbn [numbered].
  destruct do_calibration; cbn [andb]; [|rewrite Z.add_0_r; reflexivity].
  rewrite filter_cons, filter_nil.
  destruct (Z.eqb_spec ((c + 1) mod 8) 0) as [E|E];
    destruct (decide (fst (c + 1, raw) mod 8 = 0)) as [D|D];
    cbn [fst] in D; try contradiction; cbn [map snd sumZ fold_right].
  - unfold cali_term. destruct (adc_cali_raw_to_voltage raw).
    + unfold to_uint64 at 1. rewrite Z.mod_mod by lia.
      rewrite Z.add_0_r. reflexivity.
    + rewrite !Z.add_0_r. reflexivity.
  - rewrite Z.add_0_r. reflexivity.
Qed.

Lemma calibrated_cons c x frame :
  calibrated c (x :: frame) = calibrated c [x] + calibrated (c + 1) frame.
Proof.
  cbn [numbered]. rewrite !filter_cons, filter_nil.
  destruct (decide (fst (c + 1, x) mod 8 = 0));
    unfold sumZ; cbn [map fold_right]; lia.
Qed.

Lemma frame_loop_stats frame : forall buf a buf' a' c,
  frame_loop N do_calibration adc_cali_raw_to_voltage frame buf a = Ok (buf', a') ->
  frame_sample_count a = to_uint32 c ->
  frame_sample_count a' = to_uint32 (c + Z.of_nat (length frame))
  /\ frame_voltage_sum a' mod 2 ^ 64
     = (frame_voltage_sum a
        + (if do_calibration then calibrated c frame else 0)) mod 2 ^ 64.
Proof.
  induction frame as [|x frame IH]; intros buf a buf' a' c H Hc.
  - cbn in H. injection H as _ <-. cbn [length Z.of_nat numbered].
    rewrite Z.add_0_r. split; [exact Hc|].
    destruct do_calibration; cbn; rewrite Z.add_0_r; reflexivity.
  - cbn [frame_loop] in H. apply bind_ok in H as ([b1 a1] & H1 & H).
    destruct (frame_sample_stats _ _ _ _ _ c H1 Hc) as [Hc1 Hv1].
    destruct (IH _ _ _ _ (c + 1) H Hc1) as [Hc2 Hv2].
    split.
    + rewrite Hc2. f_equal. cbn [length]. lia.
    + rewrite Hv2, <- Zplus_mod_idemp_l, Hv1, Zplus_mod_idemp_l.
      f_equal. destruct do_calibration; [|lia].
      rewrite (calibrated_cons c x frame). lia.
Qed.

Lemma process_frame_stats st frame st' :
  process_frame N do_calibration adc_cali_raw_to_voltage st frame = Ok st' ->
  s_sample_count st' = to_uint32 (s_sample_count st + Z.of_nat (length frame))
  /\ s_voltage_sum st'
     = to_uint64 (s_voltage_sum st
                  + (if do_calibration
                     then sumZ (map term (eighth_samples frame)) else 0)).
Proof.
  unfold process_frame. intros H.
  apply bind_ok in H as ([buf a] & H & E). cbn [mret result_ret] in E.
  injection E as <-. cbn [s_sample_count s_voltage_sum].
  destruct (frame_loop_stats _ _ _ _ _ 0 H eq_refl) as [Hc Hv].
  cbn [frame_sample_count frame_voltage_sum] in Hc, Hv.
  rewrite Z.add_0_l in Hc, Hv. split.
  - rewrite Hc. unfold to_uint32. apply Zplus_mod_idemp_r.
  - unfold to_uint64. rewrite <- Zplus_mod_idemp_r, Hv, Zplus_mod_idemp_r.
    reflexivity.
Qed.

End Statistics.

Lemma numbered_short frame : forall c,
  0 <= c -> c + Z.of_nat (length frame) < 8 ->
  filter (fun p : Z * Z => fst p mod 8 = 0) (numbered c frame) = [].
Proof.
  induction frame as [|x frame IH]; intros c Hc Hlen; [reflexivity|].
  cbn [numbered length] in *. rewrite filter_cons_False.
  - apply IH; lia.
  - cbn [fst]. rewrite Z.mod_small; lia.
Qed.

Lemma acquire_stats N do_cal cali reads : forall st st',
  acquire N do_cal cali st reads = Ok st' ->
  0 <= s_sample_count st < 2 ^ 32 -> 0 <= s_voltage_sum st < 2 ^ 64 ->
  s_sample_count st'
    = to_uint32 (s_sample_count st + Z.of_nat (length (samples_of reads)))
  /\ 0 <= s_voltage_sum st' < 2 ^ 64
  /\ (do_cal = false -> s_voltage_sum st' = s_voltage_sum st).
Proof.
  induction reads as [|r reads IH]; intros st st' H Hc Hv.
  - cbn in H. injection H as <-. cbn [samples_of length Z.of_nat].
    unfold to_uint32. rewrite Z.add_0_r, Z.mod_small by lia. auto.
  - cbn [acquire] in H. apply bind_ok in H as (st1 & H1 & H).
    destruct r as [frame| |]; cbn [on_read samples_of] in *.
    + destruct (process_frame_stats _ _ _ _ _ _ H1) as [Hc1 Hv1].
      assert (Hc1' : 0 <= s_sample_count st1 < 2 ^ 32)
        by (rewrite Hc1; apply Z.mod_pos_bound; lia).
      assert (Hv1' : 0 <= s_voltage_sum st1 < 2 ^ 64)
        by (rewrite Hv1; apply Z.mod_pos_bound; lia).
      destruct (IH _ _ H Hc1' Hv1') as (Hc2 & Hv2 & Hoff).
      split; [|split; [exact Hv2|]].
      * rewrite Hc2, Hc1, length_app. unfold to_uint32.
        rewrite Zplus_mod_idemp_l. f_equal. lia.
      * intros ->. rewrite Hoff, Hv1 by reflexivity.
        unfold to_uint64. rewrite Z.add_0_r. apply Z.mod_small. exact Hv.
    + injection H1 as <-. apply IH; assumption.
    + injection H1 as <-. apply IH; assumption.
Qed.

(** X1: every sample of every frame is counted: over any reads the
    acquisition loop adds the number of samples it stored to
    [s_sample_count], modulo 2^32; and as long as calibration is off it
    never touches [s_voltage_sum]. *)
Theorem acquire_counts_every_sample N do_cal cali st reads :
  is_pow2 N = true -> wf_acq N st ->
  0 <= s_sample_count st < 2 ^ 32 -> 0 <= s_voltage_sum st < 2 ^ 64 ->
  exists st',
    acquire N do_cal cali st reads = Ok st'
    /\ s_sample_count st'
       = to_uint32 (s_sample_count st + Z.of_nat (length (samples_of reads)))
    /\ (do_cal = false -> s_voltage_sum st' = s_voltage_sum st).
Proof.
  intros HN Hwf Hc Hv.
  destruct (acquire_ring N HN do_cal cali reads st Hwf) as (st' & E & _).
  destruct (acquire_stats _ _ _ _ _ _ E Hc Hv) as (Hc' & _ & Hoff).
  exists st'. auto.
Qed.

Lemma acquire_counts_every_sample_witness :
  exists st',
    acquire 16 false (fun _ => None) (acq_init 16)
      [ESP_OK [5; 6; 7]; ESP_ERR_OTHER; ESP_OK [8; 9]] = Ok st'
    /\ s_sample_count st' = 5
    /\ s_voltage_sum st' = 0.
Proof.
  destruct (acquire_counts_every_sample 16 false (fun _ => None) (acq_init 16)
              [ESP_OK [5; 6; 7]; ESP_ERR_OTHER; ESP_OK [8; 9]])
    as (st' & E & Hc & Hv).
  - reflexivity.
  - split; [reflexivity | simpl; lia].
  - simpl; lia.
  - simpl; lia.
  - exists st'. split; [exact E|]. split; [exact Hc | apply Hv; reflexivity].
Defined.

(** X2: with calibration on, a frame adds to [s_voltage_sum] only the
    samples whose position in the frame is a multiple of eight, each as
    eight times its millivolts (nothing when its conversion fails), modulo
    2^64; the count restarts with every frame, so a frame of fewer than
    eight samples adds nothing. *)
Theorem frame_calibrates_every_eighth_sample N cali st frame :
  is_pow2 N = true -> wf_acq N st -> 0 <= s_voltage_sum st < 2 ^ 64 ->
  exists st',
    process_frame N true cali st frame = Ok st'
    /\ s_voltage_sum st'
       = to_uint64 (s_voltage_sum st
                    + sumZ (map (cali_term cali) (eighth_samples frame)))
    /\ (Z.of_nat (length frame) < 8 -> s_voltage_sum st' = s_voltage_sum st).
Proof.
  intros HN Hwf Hv.
  destruct (process_frame_ring N HN true cali st frame Hwf) as (st' & E & _).
  destruct (process_frame_stats _ _ _ _ _ _ E) as [_ Hsum].
  exists st'. split; [exact E|]. split; [exact Hsum|].
  intros Hshort. rewrite Hsum. unfold eighth_samples.
  rewrite numbered_short by lia. cbn [map sumZ fold_right].
  unfold to_uint64. rewrite Z.add_0_r. apply Z.mod_small. exact Hv.
Qed.

Lemma frame_calibrates_every_eighth_sample_witness :
  exists st',
    process_frame 16 true (fun raw => Some (raw + 1)) (acq_init 16)
      [10; 20; 30; 40; 50; 60; 70; 80; 90; 100; 110; 120; 130; 140; 150;
       160; 170] = Ok st'
    /\ s_voltage_sum st' = 8 * 81 + 8 * 161.
Proof.
  destruct (frame_calibrates_every_eighth_sample 16 (fun raw => Some (raw + 1))
              (acq_init 16)
              [10; 20; 30; 40; 50; 60; 70; 80; 90; 100; 110; 120; 130; 140;
               150; 160; 170])
    as (st' & E & Hsum & _).
  - reflexivity.
  - split; [reflexivity | simpl; lia].
  - simpl; lia.
  - exists st'. split; [exact E|]. rewrite Hsum. vm_compute. reflexivity.
Defined.

(** X3: reads that bring no frame, an empty pool or a driver error, leave
    the ring, the cursor and both statistics as they are: the acquisition
    loop over any reads does what it does over the frames among them. *)
Theorem acquire_ignores_failed_reads N do_cal cali reads : forall st,
  acquire N do_cal cali st reads
  = acquire N do_cal cali st (List.filter is_frame reads).
Proof.
  induction reads as [|r reads IH]; intros st; [reflexivity|].
  destruct r as [frame| |]; cbn [List.filter is_frame acquire on_read].
  - destruct (process_frame N do_cal cali st frame) as [st1|f];
      cbn [mbind result_bind]; [apply IH | reflexivity].
  - cbn [mbind result_bind mret result_ret]. apply IH.
  - cbn [mbind result_bind mret result_ret]. apply IH.
Qed.

(** * What every reachable state satisfies *)

Lemma to_uint16_range x : uint16_range (to_uint16 x).
Proof.
  unfold uint16_range, UINT16_MAX, to_uint16.
  pose proof (Z.mod_pos_bound x (2 ^ 16)). lia.
Qed.

Lemma ring_after_uint16 N samples : forall buf wr,
  Forall uint16_range buf ->
  Forall uint16_range (fst (ring_after N buf wr samples)).
Proof.
  unfold ring_after.
  induction samples as [|x l IH]; intros buf wr Hu; cbn [fold_left]; [exact Hu|].
  unfold ring_write at 2. cbn [fst snd]. apply IH.
  apply Forall_insert; [exact Hu | apply to_uint16_range].
Qed.

Lemma reachable_typed N do_cal cali st :
  is_pow2 N = true -> reachable N do_cal cali st ->
  Forall uint16_range (circ_buf st)
  /\ 0 <= s_sample_count st < 2 ^ 32
  /\ 0 <= s_voltage_sum st < 2 ^ 64.
Proof.
  intros HN Hr. induction Hr as [|st r st' Hr IH Hstep].
  - cbn [acq_init circ_buf s_sample_count s_voltage_sum].
    split; [|lia]. apply Forall_replicate. unfold uint16_range, UINT16_MAX. lia.
  - destruct IH as (Hu & Hc & Hv).
    pose proof (reachable_wf N do_cal cali st HN Hr) as Hwf.
    destruct r as [frame| |]; cbn [on_read] in Hstep;
      [|injection Hstep as <-; auto ..].
    destruct (process_frame_ring N HN do_cal cali st frame Hwf) as (st1 & E & R).
    rewrite E in Hstep. injection Hstep as <-.
    destruct (process_frame_stats _ _ _ _ _ _ E) as [Hc1 Hv1].
    split; [|split].
    + pose proof (ring_after_uint16 N frame _ (circ_buf_wr st) Hu) as H.
      rewrite <- R in H. exact H.
    + rewrite Hc1. apply Z.mod_pos_bound. lia.
    + rewrite Hv1. apply Z.mod_pos_bound. lia.
Qed.

(** X5: the filter can be stepped on the acquisition ring at the published
    cursor in every reachable state, for every filter shape and every
    filter state: the step returns a value and never reads outside the
    ring. *)
Theorem filter_steps_on_reachable_ring N do_cal cali st L G R filter :
  is_pow2 N = true -> reachable N do_cal cali st ->
  exists v filter',
    trap_filter_step L G R filter (circ_buf st) N (circ_buf_wr st)
      = Ok (v, filter')
    /\ filter_value filter' = v /\ initialized filter' = true.
Proof.
  intros HN Hr.
  destruct (reachable_typed N do_cal cali st HN Hr) as (Hu & _).
  destruct (reachable_wf N do_cal cali st HN Hr) as [Hl Hw].
  destruct (is_pow2_exp N HN) as [HB _].
  apply trap_filter_step_total; [|exact Hw].
  split; [lia|]. split; assumption.
Qed.

Lemma filter_steps_on_reachable_ring_witness :
  exists v filter',
    trap_filter_step 64 32 8 fresh_filter (circ_buf (acq_init 16)) 16
      (circ_buf_wr (acq_init 16)) = Ok (v, filter')
    /\ filter_value filter' = v /\ initialized filter' = true.
Proof.
  apply (filter_steps_on_reachable_ring 16 false (fun _ => None) (acq_init 16)
           64 32 8 fresh_filter).
  - reflexivity.
  - apply reach_init.
Defined.

(** X6: what the display task reports one period after a reset of the
    statistics: when [k < 2^32] samples came in, it prints [k] as the
    sample count, the cursor [k] positions further modulo [N], and the
    voltage sum divided by [k] as the average; when none came in, it
    prints the "no new samples" line with the cursor; and it leaves both
    statistics at zero and the ring as it is. *)
Theorem report_after_acquire N do_cal cali st reads :
  is_pow2 N = true -> wf_acq N st ->
  s_sample_count st = 0 -> s_voltage_sum st = 0 ->
  let k := Z.of_nat (length (samples_of reads)) in
  k < 2 ^ 32 ->
  exists st',
    acquire N do_cal cali st reads = Ok st'
    /\ processing_task_tick st'
       = ((if k =? 0 then NoNewSamples (circ_buf_wr st)
           else AvgVoltage (to_uint32 (s_voltage_sum st' / k)) k
                           ((circ_buf_wr st + k) mod N)),
          {| circ_buf := circ_buf st'; circ_buf_wr := circ_buf_wr st';
             s_voltage_sum := 0; s_sample_count := 0 |})
    /\ (do_cal = false -> s_voltage_sum st' = 0).
Proof.
  intros HN Hwf Hc Hv k Hk.
  destruct (acquire_ring N HN do_cal cali reads st Hwf) as (st' & E & R).
  destruct (acquire_stats _ _ _ _ _ _ E ltac:(lia) ltac:(lia)) as (Hc' & _ & Hoff).
  destruct Hwf as [Hl Hw].
  destruct (ring_after_contents N HN (samples_of reads) _ _ Hl Hw) as (Hwr & _).
  rewrite <- R in Hwr. cbn [snd] in Hwr. fold k in Hwr, Hc'.
  rewrite Hc, Z.add_0_l in Hc'. unfold to_uint32 in Hc'.
  rewrite Z.mod_small in Hc' by lia.
  exists st'. split; [exact E|]. split; [|intros D; rewrite Hoff; auto].
  unfold processing_task_tick. rewrite Hc', Hwr.
  destruct (Z.eqb_spec k 0) as [->|Hne].
  - cbn [Z.ltb Z.compare]. rewrite Z.add_0_r, Z.mod_small by lia. reflexivity.
  - destruct (Z.ltb_spec 0 k); [reflexivity | lia].
Qed.

Lemma report_after_acquire_witness :
  exists st',
    acquire 16 false (fun _ => None) (acq_init 16)
      [ESP_OK [1; 2; 3]; ESP_ERR_TIMEOUT; ESP_OK [4; 5]] = Ok st'
    /\ fst (processing_task_tick st') = AvgVoltage 0 5 5.
Proof.
  destruct (report_after_acquire 16 false (fun _ => None) (acq_init 16)
              [ESP_OK [1; 2; 3]; ESP_ERR_TIMEOUT; ESP_OK [4; 5]])
    as (st' & E & Ht & Hoff).
  - reflexivity.
  - split; [reflexivity | simpl; lia].
  - reflexivity.
  - reflexivity.
  - simpl; lia.
  - exists st'. split; [exact E|]. rewrite Ht, Hoff by reflexivity.
    reflexivity.
Defined.

(** * Further properties of the export *)

Lemma lookup_slot (a : list Z) (i : nat) :
  (i < length a)%nat -> a !! i = Some (slot a (Z.of_nat i)).
Proof.
  intros H. destruct (lookup_lt_is_Some_2 a i H) as [v Hv].
  rewrite Hv. f_equal. unfold slot. rewrite Nat2Z.id. symmetry.
  apply nth_lookup_Some with (d := 0). exact Hv.
Qed.

Lemma ring_rotation N (buf : list Z) wr :
  Z.of_nat (length buf) = N -> 0 <= wr < N ->
  map (fun i => slot buf ((wr + i) mod N)) (indices N)
  = drop (Z.to_nat wr) buf ++ take (Z.to_nat wr) buf.
Proof.
  intros Hl Hw. apply list_eq. intros j.
  destruct (Nat.lt_ge_cases j (length buf)) as [Hj|Hj].
  - rewrite list_lookup_fmap. unfold indices. rewrite list_lookup_fmap.
    rewrite lookup_seq_lt by lia. cbn [fmap option_fmap option_map Nat.add].
    destruct (Nat.lt_ge_cases j (length buf - Z.to_nat wr)) as [Hs|Hs].
    + rewrite lookup_app_l by (rewrite length_drop; lia).
      rewrite lookup_drop, lookup_slot by lia. f_equal. f_equal.
      rewrite Z.mod_small by lia. lia.
    + rewrite lookup_app_r by (rewrite length_drop; lia).
      rewrite length_drop, lookup_take_lt by lia.
      rewrite lookup_slot by lia. f_equal. f_equal.
      replace (wr + Z.of_nat j) with (wr + Z.of_nat j - N + 1 * N) by lia.
      rewrite Z_mod_plus_full, Z.mod_small by lia. lia.
  - rewrite !lookup_ge_None_2; [reflexivity | |].
    + rewrite length_app, length_drop, length_take. lia.
    + rewrite length_map, indices_length. lia.
Qed.

(** X7: exporting the whole ring, [N] samples with [pre_samples = 0] (or,
    just the same, [pre_samples = N]), returns the ring rotated at the
    cursor: the slots from the cursor to the end, then the slots before
    the cursor, which is the stored history from oldest to newest once
    the ring has been filled. *)
Theorem export_whole_ring_is_rotation N st out :
  is_pow2 N = true -> wf_acq N st -> Z.of_nat (length out) = N ->
  export_circular_buffer N st out 0 N
    = Ok (drop (Z.to_nat (circ_buf_wr st)) (circ_buf st)
          ++ take (Z.to_nat (circ_buf_wr st)) (circ_buf st))
  /\ export_circular_buffer N st out N N
     = export_circular_buffer N st out 0 N.
Proof.
  intros HN Hwf Hout. destruct (is_pow2_exp N HN) as [HB _].
  rewrite !(export_circular_buffer_copy N HN) by (try assumption; lia).
  rewrite Z.min_id, drop_ge, !app_nil_r by lia.
  pose proof Hwf as [Hl Hw]. rewrite <- (ring_rotation N) by assumption.
  split; f_equal; apply map_ext; intros i; f_equal.
  - f_equal. lia.
  - replace (circ_buf_wr st - N + i) with (circ_buf_wr st - 0 + i + (-1) * N)
      by lia.
    apply Z_mod_plus_full.
Qed.

Lemma export_whole_ring_is_rotation_witness :
  export_circular_buffer 16
    {| circ_buf := [16; 17; 18; 19; 20; 5; 6; 7; 8; 9; 10; 11; 12; 13; 14; 15];
       circ_buf_wr := 5; s_voltage_sum := 0; s_sample_count := 21 |}
    (replicate 16 0) 0 16
  = Ok [5; 6; 7; 8; 9; 10; 11; 12; 13; 14; 15; 16; 17; 18; 19; 20].
Proof.
  destruct (export_whole_ring_is_rotation 16
              {| circ_buf := [16; 17; 18; 19; 20; 5; 6; 7; 8; 9; 10; 11; 12;
                              13; 14; 15];
                 circ_buf_wr := 5; s_voltage_sum := 0; s_sample_count := 21 |}
              (replicate 16 0)) as [E _].
  - reflexivity.
  - split; [reflexivity | simpl; lia].
  - reflexivity.
  - rewrite E. reflexivity.
Defined.

(** X8: the export looks at [pre_samples] only modulo the capacity: two
    requests whose [pre_samples] differ by a multiple of [N] (a count
    larger than the ring, or larger than the cursor) return the same
    thing. *)
Theorem export_pre_samples_modulo_capacity N st out pre pre' total_samples :
  is_pow2 N = true -> pre mod N = pre' mod N ->
  export_circular_buffer N st out pre total_samples
  = export_circular_buffer N st out pre' total_samples.
Proof.
  intros HN Hpre. unfold export_circular_buffer.
  rewrite !(export_start N HN). f_equal.
  rewrite (Zminus_mod _ pre), (Zminus_mod _ pre'), Hpre. reflexivity.
Qed.

Lemma export_pre_samples_modulo_capacity_witness :
  export_circular_buffer 16 (acq_init 16) [9; 9; 9] 20 3
  = export_circular_buffer 16 (acq_init 16) [9; 9; 9] 4 3.
Proof.
  apply (export_pre_samples_modulo_capacity 16 (acq_init 16) [9; 9; 9] 20 4 3).
  - reflexivity.
  - reflexivity.
Defined.

Lemma export_loop_overrun N (HN : is_pow2 N = true) circ start n :
  forall (i : nat) (out : list Z),
  Z.of_nat (length circ) = N ->
  (i <= length out < i + n)%nat ->
  export_loop N n (Z.of_nat i) circ start out
  = Fault (OutOfBounds OutBuffer (Z.of_nat (length out))).
Proof.
  induction n as [|n IH]; intros i out Hc Hlen; [lia|].
  cbn [export_loop].
  destruct (masked_index N (start + Z.of_nat i) HN) as [-> Hr].
  rewrite arr_read_ok by lia. cbn [mbind result_bind].
  destruct (Nat.eq_dec i (length out)) as [->|Hne].
  - unfold arr_write.
    destruct (Z.ltb_spec (Z.of_nat (length out)) (Z.of_nat (length out))); [lia|].
    rewrite andb_false_r. reflexivity.
  - rewrite arr_write_ok by lia. cbn [mbind result_bind].
    replace (Z.of_nat i + 1) with (Z.of_nat (S i)) by lia.
    rewrite IH by (rewrite ?length_insert; (assumption || lia)).
    rewrite length_insert. reflexivity.
Qed.

Lemma export_short_buffer N st out pre_samples total_samples :
  is_pow2 N = true -> wf_acq N st ->
  Z.of_nat (length out) < Z.min total_samples N ->
  export_circular_buffer N st out pre_samples total_samples
  = Fault (OutOfBounds OutBuffer (Z.of_nat (length out))).
Proof.
  intros HN [Hl Hw] Hshort. unfold export_circular_buffer.
  apply (export_loop_overrun N HN _ _ _ 0%nat); [exact Hl | lia].
Qed.

(** X9: the export trusts the caller for the size of [out_buffer]: when
    the buffer has fewer slots than the [min total_samples N] samples the
    loop copies, the copy runs past its end, the first write outside
    being at index [length out_buffer]. *)
Theorem export_overruns_short_buffer N st out pre_samples total_samples :
  is_pow2 N = true -> wf_acq N st ->
  Z.of_nat (length out) < Z.min total_samples N ->
  export_circular_buffer N st out pre_samples total_samples
  = Fault (OutOfBounds OutBuffer (Z.of_nat (length out))).
Proof. apply export_short_buffer. Qed.

Lemma export_overruns_short_buffer_witness :
  export_circular_buffer 16 (acq_init 16) [9; 9; 9] 4 8
  = Fault (OutOfBounds OutBuffer 3).
Proof.
  apply (export_overruns_short_buffer 16 (acq_init 16) [9; 9; 9] 4 8).
  - reflexivity.
  - split; [reflexivity | simpl; lia].
  - simpl; lia.
Defined.

(** * Further properties of the trigger handler *)

Lemma log_samples_closed n : forall (i : nat) (b : list Z),
  (i + n <= length b)%nat ->
  log_samples n (Z.of_nat i) b
  = Ok (map (fun j => LogSample (Z.of_nat j) (slot b (Z.of_nat j))) (seq i n)).
Proof.
  induction n as [|n IH]; intros i b Hlen; [reflexivity|].
  cbn [log_samples]. rewrite arr_read_ok by lia. cbn [mbind result_bind].
  replace (Z.of_nat i + 1) with (Z.of_nat (S i)) by lia.
  rewrite IH by lia. reflexivity.
Qed.

Section Handler.

Variable N : Z.
Hypothesis HN : is_pow2 N = true.
Variable do_cal : bool.
Variable cali : Z -> option Z.

(** X10: when [malloc] fails the handler exports nothing and logs
    nothing about the capture, and still sets [capture_complete], clears
    [trigger_seen] and restarts the converter, after the same 100 ms
    wait. *)
Theorem failed_malloc_still_completes during_delay sys pre post :
  wf_acq N (acq sys) -> trigger_seen sys = false ->
  exists st',
    acquire N do_cal cali (acq sys) during_delay = Ok st'
    /\ handle_trigger_capture N do_cal cali during_delay None sys pre post
       = Ok {| acq := st'; trigger_seen := false; capture_complete := true;
               notify_value := notify_value sys;
               trace := trace sys ++ [LogTriggerDetected; TaskDelay 100;
                                      AdcStop; AdcStart] |}.
Proof.
  intros Hwf Hts.
  destruct (acquire_ring N HN do_cal cali during_delay (acq sys) Hwf)
    as (st' & E & _).
  exists st'. split; [exact E|].
  unfold handle_trigger_capture, post_trigger_wait, export_capture.
  rewrite Hts, E. cbn [mbind result_bind mret result_ret acq trace notify_value].
  rewrite <- app_assoc. reflexivity.
Qed.

(** X11: the handler sizes the export block as [(pre + post) * 2] bytes in
    [size_t].  From [pre + post = 2^31] on the product wraps, the block has
    only [pre + post - 2^31] slots, and the export, which copies [N]
    samples, writes past its end as soon as that is fewer than [N]. *)
Theorem export_block_size_wraps during_delay junk sys pre post :
  wf_acq N (acq sys) -> trigger_seen sys = false ->
  0 <= pre -> 0 <= post ->
  2 ^ 31 <= pre + post < 2 ^ 31 + N ->
  handle_trigger_capture N do_cal cali during_delay (Some junk) sys pre post
  = Fault (OutOfBounds OutBuffer (pre + post - 2 ^ 31)).
Proof.
  intros Hwf Hts Hpre Hpost Hsum. destruct (is_pow2_exp N HN) as [HB _].
  destruct (acquire_ring N HN do_cal cali during_delay (acq sys) Hwf)
    as (st' & E & R).
  pose proof (wf_acq_ring N _ _ _ Hwf R) as Hwf'.
  unfold handle_trigger_capture, post_trigger_wait, export_capture.
  rewrite Hts, E. cbn [mbind result_bind mret result_ret acq trace notify_value].
  set (total := to_size_t (pre + post)).
  assert (Htotal : total = pre + post)
    by (unfold total, to_size_t; apply Z.mod_small; lia).
  assert (Hslots : to_size_t (total * 2) / 2 = total - 2 ^ 31).
  { unfold to_size_t.
    replace (total * 2) with (total * 2 - 2 ^ 32 + 1 * 2 ^ 32) by lia.
    rewrite Z_mod_plus_full, Z.mod_small by lia.
    replace (total * 2 - 2 ^ 32) with ((total - 2 ^ 31) * 2) by lia.
    apply Z.div_mul. lia. }
  rewrite Hslots.
  rewrite (export_short_buffer N st' _ pre total HN Hwf');
    rewrite length_map, indices_length, Z2Nat.id by lia.
  - cbn [mbind result_bind]. rewrite Htotal. reflexivity.
  - lia.
Qed.


(** X12: what a capture of at most [N] samples shows: after the 100 ms
    wait and the stop, one line with the two counts, then the first
    [min 10 (pre + post)] exported samples, which are the ring's slots
    from [pre] before the cursor on; the uninitialised content of the
    fresh block never shows. *)
Theorem capture_logs_window during_delay junk sys pre post :
  wf_acq N (acq sys) -> trigger_seen sys = false ->
  0 <= pre -> 0 <= post -> pre + post <= N -> pre + post < 2 ^ 31 ->
  exists st',
    acquire N do_cal cali (acq sys) during_delay = Ok st'
    /\ handle_trigger_capture N do_cal cali during_delay (Some junk) sys pre post
       = Ok {| acq := st'; trigger_seen := false; capture_complete := true;
               notify_value := notify_value sys;
               trace := trace sys
                 ++ [LogTriggerDetected; TaskDelay 100; AdcStop;
                     LogCaptured pre post]
                 ++ map (fun i => LogSample i
                           (slot (circ_buf st')
                                 ((circ_buf_wr st' - pre + i) mod N)))
                        (indices (Z.min 10 (pre + post)))
                 ++ [AdcStart] |}.
Proof.
  intros Hwf Hts Hpre Hpost Hsum Hfit. destruct (is_pow2_exp N HN) as [HB _].
  destruct (acquire_ring N HN do_cal cali during_delay (acq sys) Hwf)
    as (st' & E & R).
  pose proof (wf_acq_ring N _ _ _ Hwf R) as Hwf'.
  exists st'. split; [exact E|].
  unfold handle_trigger_capture, post_trigger_wait, export_capture.
  rewrite Hts, E. cbn [mbind result_bind mret result_ret acq trace notify_value].
  set (total := to_size_t (pre + post)).
  assert (Htotal : total = pre + post)
    by (unfold total, to_size_t; apply Z.mod_small; lia).
  assert (Hslots : to_size_t (total * 2) / 2 = total).
  { unfold to_size_t. rewrite Z.mod_small by lia. apply Z.div_mul. lia. }
  rewrite Hslots.
  rewrite (export_circular_buffer_copy N HN);
    [ | exact Hwf' | lia | rewrite length_map, indices_length; lia ].
  cbn [mbind result_bind].
  rewrite (Z.min_l total N) by lia.
  rewrite drop_ge, app_nil_r by (rewrite length_map, indices_length; lia).
  change 0 with (Z.of_nat 0) at 1.
  rewrite log_samples_closed by (rewrite length_map, indices_length; lia).
  cbn [mbind result_bind mret result_ret]. f_equal. f_equal.
  rewrite <- !app_assoc. cbn [app]. rewrite Htotal.
  match goal with
  | |- context [map ?f (seq 0 ?n)] =>
      assert (Hlog : map f (seq 0 n)
                = map (fun i => LogSample i
                         (slot (circ_buf st')
                               ((circ_buf_wr st' - pre + i) mod N)))
                      (indices (Z.min 10 (pre + post))))
  end.
  { unfold indices at 2. rewrite map_map.
    apply map_ext_in. intros j Hj. apply in_seq in Hj.
    rewrite slot_map_indices by lia. reflexivity. }
  rewrite Hlog. reflexivity.
Qed.


End Handler.

Lemma failed_malloc_still_completes_witness :
  handle_trigger_capture 16 false (fun _ => None) [ESP_OK [1; 2; 3]] None
    (system_init 16) 2 1
  = Ok {| acq := {| circ_buf := [1; 2; 3; 0; 0; 0; 0; 0; 0; 0; 0; 0; 0; 0; 0; 0];
                    circ_buf_wr := 3; s_voltage_sum := 0; s_sample_count := 3 |};
          trigger_seen := false; capture_complete := true; notify_value := 0;
          trace := [LogTriggerDetected; TaskDelay 100; AdcStop; AdcStart] |}.
Proof.
  destruct (failed_malloc_still_completes 16 eq_refl false (fun _ => None)
              [ESP_OK [1; 2; 3]] (system_init 16) 2 1) as (st' & E & H).
  - split; [reflexivity | simpl; lia].
  - reflexivity.
  - rewrite H. vm_compute in E. injection E as <-. reflexivity.
Defined.

Lemma export_block_size_wraps_witness :
  handle_trigger_capture 16 false (fun _ => None) [] (Some (fun _ => 999))
    (system_init 16) (2 ^ 31) 3
  = Fault (OutOfBounds OutBuffer 3).
Proof.
  apply (export_block_size_wraps 16 eq_refl false (fun _ => None) []
           (fun _ => 999) (system_init 16) (2 ^ 31) 3).
  - split; [reflexivity | simpl; lia].
  - reflexivity.
  - lia.
  - lia.
  - lia.
Defined.

Lemma capture_logs_window_witness :
  handle_trigger_capture 16 false (fun _ => None) [ESP_OK [1; 2; 3]]
    (Some (fun _ => 999)) (system_init 16) 2 1
  = Ok {| acq := {| circ_buf := [1; 2; 3; 0; 0; 0; 0; 0; 0; 0; 0; 0; 0; 0; 0; 0];
                    circ_buf_wr := 3; s_voltage_sum := 0; s_sample_count := 3 |};
          trigger_seen := false; capture_complete := true; notify_value := 0;
          trace := [LogTriggerDetected; TaskDelay 100; AdcStop; LogCaptured 2 1;
                    LogSample 0 2; LogSample 1 3; LogSample 2 0; AdcStart] |}.
Proof.
  destruct (capture_logs_window 16 eq_refl false (fun _ => None)
              [ESP_OK [1; 2; 3]] (fun _ => 999) (system_init 16) 2 1)
    as (st' & E & H).
  - split; [reflexivity | simpl; lia].
  - reflexivity.
  - lia.
  - lia.
  - lia.
  - lia.
  - rewrite H. vm_compute in E. injection E as <-. reflexivity.
Defined.

(** * Further properties of the filter *)





Lemma slot_replicate n c i :
  0 <= i < Z.of_nat n -> slot (replicate n c) i = c.
Proof.
  intros H. unfold slot. apply nth_lookup_Some with (d := 0).
  apply lookup_replicate_2. lia.
Qed.

Lemma sumZ_const (c : Z) (l : list Z) (f : Z -> Z) :
  (forall i, In i l -> f i = c) -> sumZ (map f l) = Z.of_nat (length l) * c.
Proof.
  intros H. induction l as [|x l IH]; [reflexivity|].
  cbn [map length]. unfold sumZ in *. cbn [fold_right].
  rewrite IH by (intros; apply H; right; assumption).
  rewrite (H x) by (left; reflexivity). lia.
Qed.

Lemma rate_sum_replicate R n c p :
  (0 < n)%nat -> 0 <= R ->
  rate_sum R (replicate n c) (Z.of_nat n) p = R * c.
Proof.
  intros Hn HR. unfold rate_sum.
  rewrite (sumZ_const c).
  - rewrite indices_length, Z2Nat.id by lia. reflexivity.
  - intros i _. apply slot_replicate. apply Z.mod_pos_bound. lia.
Qed.

(** C9, counterexample: rate 32769 on a buffer of four samples 65535.
    The sum of the 32769 samples read is 2147516415, more than an
    [int32_t] holds; the function returns -2147450881. *)
Lemma filter_sum_step_overflows :
  filter_sum_step [65535; 65535; 65535; 65535] 4 0 32769
    = Ok (-2147450881, 0)
  /\ rate_sum 32769 [65535; 65535; 65535; 65535] 4 0 = 2147516415.
Proof.
  assert (Hsum : rate_sum 32769 (replicate 4 65535) (Z.of_nat 4) 0
                 = 32769 * 65535) by (apply rate_sum_replicate; lia).
  change (replicate 4 65535) with [65535; 65535; 65535; 65535] in Hsum.
  change (Z.of_nat 4) with 4 in Hsum.
  split; [|rewrite Hsum; reflexivity].
  rewrite filter_sum_step_eq.
  - rewrite Hsum. reflexivity.
  - split; [lia|]. split; [reflexivity|].
    repeat constructor; unfold UINT16_MAX; lia.
  - lia.
  - unfold INT32_MAX. lia.
Qed.

(** The first call on a fresh filter. *)
Lemma trap_filter_first_call L G R filter buffer buffer_size wr :
  1 <= R <= INT32_MAX -> filter_buffer buffer buffer_size ->
  0 <= wr < buffer_size -> initialized filter = false ->
  trap_filter_step L G R filter buffer buffer_size wr =
  let v := to_int32 (rate_sum R buffer buffer_size wr) in
  Ok (v, {| filter_value := v; buffer_pos := wr;
            samples_processed := samples_processed filter;
            initialized := true |}).
Proof.
  intros HR Hb Hp Hi. unfold trap_filter_step. rewrite Hi. cbn [negb].
  rewrite filter_sum_step_eq by assumption. reflexivity.
Qed.

(** The first call and the updates after it, in closed form. *)
Lemma trap_filter_run_closed L G R buffer_size b0 p0 calls :
  shape_ok L G R ->
  Forall (valid_call buffer_size) ((b0, p0) :: calls) ->
  exists filter',
    trap_filter_run L G R fresh_filter buffer_size ((b0, p0) :: calls)
      = Ok filter'
    /\ filter_value filter' =
       to_int32 (rate_sum R b0 buffer_size p0
                 + sumZ (map (fun c => update_increment L G R (fst c)
                                         buffer_size (snd c)) calls)).
Proof.
  intros Hshape Hv.
  inversion Hv as [|c cs [Hb Hp] Hrest]; subst. cbn [fst snd] in *.
  cbn [trap_filter_run].
  rewrite trap_filter_first_call by (try apply Hshape; auto).
  cbv zeta. cbn [mbind result_bind].
  edestruct (trap_filter_run_updates L G R buffer_size calls) as (f' & -> & Hval);
    try eassumption; [reflexivity | apply to_int32_range |].
  exists f'. split; [reflexivity|].
  rewrite Hval. cbn [filter_value]. apply to_int32_add_l.
Qed.

(** X13: on a buffer that holds one constant [c] everywhere the updates
    add nothing: after the first call and any number of updates at any
    positions the running value is still the first [R]-sample sum,
    [R * c] (as an [int32_t]); it does not go to zero. *)
Theorem constant_input_keeps_first_sum L G R n c positions p0 :
  shape_ok L G R -> (0 < n)%nat -> Z.of_nat n < 2 ^ 32 -> 0 <= c <= 65535 ->
  Forall (fun p => 0 <= p < Z.of_nat n) (p0 :: positions) ->
  exists filter',
    trap_filter_run L G R fresh_filter (Z.of_nat n)
      (map (fun p => (replicate n c, p)) (p0 :: positions)) = Ok filter'
    /\ filter_value filter' = to_int32 (R * c).
Proof.
  intros Hshape Hn Hn32 Hc Hpos.
  assert (Hb : filter_buffer (replicate n c) (Z.of_nat n)).
  { split; [lia|]. split; [rewrite length_replicate; reflexivity|].
    apply Forall_replicate. unfold uint16_range, UINT16_MAX. lia. }
  cbn [map].
  destruct (trap_filter_run_closed L G R (Z.of_nat n) (replicate n c) p0
              (map (fun p => (replicate n c, p)) positions) Hshape)
    as (f' & E & Hval).
  { rewrite <- (map_cons (fun p => (replicate n c, p))).
    apply Forall_map. eapply Forall_impl; [exact Hpos|].
    intros p Hp. split; [exact Hb | exact Hp]. }
  exists f'. split; [exact E|]. rewrite Hval.
  destruct Hshape as (HR & HL & HG).
  rewrite rate_sum_replicate by lia. f_equal.
  rewrite map_map, (sumZ_const 0); [lia|].
  intros p _. cbn [fst snd]. unfold update_increment. cbv zeta.
  rewrite !rate_sum_replicate by lia. lia.
Qed.

Lemma constant_input_keeps_first_sum_witness :
  exists filter',
    trap_filter_run 64 32 8 fresh_filter 256
      (map (fun p => (replicate 256 100, p)) [0; 1; 2; 3]) = Ok filter'
    /\ filter_value filter' = 800.
Proof.
  destruct (constant_input_keeps_first_sum 64 32 8 256 100 [1; 2; 3] 0)
    as (f' & E & Hv).
  - unfold shape_ok, INT32_MAX. lia.
  - lia.
  - lia.
  - lia.
  - repeat constructor; lia.
  - exists f'. split; [exact E | rewrite Hv; reflexivity].
Defined.

Lemma trap_filter_step_fields L G R filter buffer buffer_size wr :
  filter_buffer buffer buffer_size -> 0 <= wr < buffer_size ->
  exists v filter',
    trap_filter_step L G R filter buffer buffer_size wr = Ok (v, filter')
    /\ initialized filter' = true /\ buffer_pos filter' = wr
    /\ samples_processed filter'
       = if initialized filter then to_size_t (samples_processed filter + 1)
         else samples_processed filter.
Proof.
  intros Hb Hp. pose proof Hb as (Hs & _).
  unfold trap_filter_step. destruct (initialized filter); cbn [negb].
  - destruct (filter_sum_step_total buffer buffer_size wr R Hb Hp)
      as (s1 & p1 & -> & Hp1).
    cbn [mbind result_bind].
    destruct (filter_sum_step_total buffer buffer_size
                (walk_back (filter_length_shift L R) buffer_size p1) R Hb
                (walk_back_range _ _ _ Hs Hp1)) as (s2 & p2 & -> & Hp2).
    cbn [mbind result_bind].
    destruct (filter_sum_step_total buffer buffer_size
                (walk_back (filter_gap_shift G R) buffer_size p2) R Hb
                (walk_back_range _ _ _ Hs Hp2)) as (s3 & p3 & -> & Hp3).
    cbn [mbind result_bind].
    destruct (filter_sum_step_total buffer buffer_size
                (walk_back (filter_length_shift L R) buffer_size p3) R Hb
                (walk_back_range _ _ _ Hs Hp3)) as (s4 & p4 & -> & Hp4).
    cbn [mbind result_bind mret result_ret].
    eexists _, _. split; [reflexivity|]. repeat split.
  - destruct (filter_sum_step_total buffer buffer_size wr R Hb Hp)
      as (s1 & p1 & -> & Hp1).
    cbn [mbind result_bind mret result_ret].
    eexists _, _. split; [reflexivity|]. repeat split.
Qed.

Lemma last_cons_default (l : list Z) : forall x d d',
  List.last (x :: l) d = List.last (x :: l) d'.
Proof.
  induction l as [|y l IH]; intros x d d'; [reflexivity|].
  change (List.last (y :: l) d = List.last (y :: l) d'). apply IH.
Qed.

Lemma trap_filter_run_fields L G R buffer_size calls : forall filter,
  initialized filter = true -> 0 <= samples_processed filter < 2 ^ 32 ->
  Forall (valid_call buffer_size) calls ->
  exists filter',
    trap_filter_run L G R filter buffer_size calls = Ok filter'
    /\ initialized filter' = true
    /\ buffer_pos filter' = List.last (map snd calls) (buffer_pos filter)
    /\ samples_processed filter'
       = to_size_t (samples_processed filter + Z.of_nat (length calls)).
Proof.
  induction calls as [|[b p] calls IH]; intros filter Hi Hs Hv.
  - exists filter. split; [reflexivity|]. split; [exact Hi|].
    split; [reflexivity|]. cbn [length Z.of_nat].
    unfold to_size_t. rewrite Z.add_0_r, Z.mod_small; lia.
  - inversion Hv as [|c cs [Hb Hp] Hrest]; subst. cbn [fst snd] in *.
    cbn [trap_filter_run].
    destruct (trap_filter_step_fields L G R filter b buffer_size p Hb Hp)
      as (v & f1 & -> & Hi1 & Hp1 & Hs1).
    cbn [mbind result_bind]. rewrite Hi in Hs1.
    destruct (IH f1 Hi1) as (f' & -> & Hi' & Hp' & Hs'); [|exact Hrest|].
    { rewrite Hs1. apply Z.mod_pos_bound. lia. }
    exists f'. split; [reflexivity|]. split; [exact Hi'|]. split.
    + rewrite Hp', Hp1. destruct calls as [|c1 calls]; [reflexivity|].
      exact (last_cons_default (map snd calls) (snd c1) _ _).
    + rewrite Hs', Hs1. unfold to_size_t. rewrite Zplus_mod_idemp_l.
      f_equal. cbn [length]. lia.
Qed.

(** X14: the bookkeeping of the filter, for every shape: after the first
    call and [n] further calls the filter is initialised, [buffer_pos] is
    the position of the last call, and [samples_processed] is [n] modulo
    2^32: the call that initialises is not counted. *)
Theorem filter_counts_updates_only L G R buffer_size c0 calls :
  Forall (valid_call buffer_size) (c0 :: calls) ->
  exists filter',
    trap_filter_run L G R fresh_filter buffer_size (c0 :: calls) = Ok filter'
    /\ initialized filter' = true
    /\ buffer_pos filter' = List.last (map snd calls) (snd c0)
    /\ samples_processed filter' = to_size_t (Z.of_nat (length calls)).
Proof.
  intros Hv. destruct c0 as [b p].
  inversion Hv as [|c cs [Hb Hp] Hrest]; subst. cbn [fst snd] in *.
  cbn [trap_filter_run].
  destruct (trap_filter_step_fields L G R fresh_filter b buffer_size p Hb Hp)
    as (v & f1 & -> & Hi1 & Hp1 & Hs1).
  cbn [mbind result_bind]. cbn [initialized fresh_filter samples_processed] in Hs1.
  destruct (trap_filter_run_fields L G R buffer_size calls f1 Hi1)
    as (f' & -> & Hi' & Hp' & Hs'); [rewrite Hs1; lia | exact Hrest |].
  exists f'. split; [reflexivity|]. split; [exact Hi'|].
  rewrite Hp', Hp1, Hs', Hs1. split; reflexivity.
Qed.

Lemma filter_counts_updates_only_witness :
  exists filter',
    trap_filter_run 4 0 8 fresh_filter 4
      [([1; 2; 3; 4], 0); ([1; 2; 3; 4], 1); ([1; 2; 3; 4], 3)] = Ok filter'
    /\ initialized filter' = true
    /\ buffer_pos filter' = 3
    /\ samples_processed filter' = 2.
Proof.
  apply (filter_counts_updates_only 4 0 8 4 ([1; 2; 3; 4], 0)
           [([1; 2; 3; 4], 1); ([1; 2; 3; 4], 3)]).
  repeat constructor; cbn [fst snd]; unfold UINT16_MAX; lia.
Defined.

Lemma to_int32_zero x : to_int32 x = 0 <-> x mod 2 ^ 32 = 0.
Proof.
  split; intros H.
  - rewrite <- to_int32_mod, H. reflexivity.
  - pose proof (to_int32_range x) as Hr. pose proof (to_int32_mod x) as Hm.
    rewrite H in Hm. unfold int32_range, INT32_MIN, INT32_MAX in Hr.
    apply Z.mod_divide in Hm; [|lia]. destruct Hm as [q Hq]. lia.
Qed.

(** X15: the normalised output divides by [2 * L * R] computed in [int];
    the division is by zero exactly when that product is 0 modulo 2^32,
    in particular when [L] or [R] is 0.  In every other case a value is
    returned. *)
Theorem normalized_divides_by_zero_iff L R (filter : trap_filter_t) :
  (trap_filter_get_normalized L R filter = Fault DivisionByZero
   <-> (2 * L * R) mod 2 ^ 32 = 0)
  /\ ((2 * L * R) mod 2 ^ 32 <> 0 ->
      exists v, trap_filter_get_normalized L R filter = Ok (v, filter)).
Proof.
  assert (E : effective_length L R = 0 <-> (2 * L * R) mod 2 ^ 32 = 0).
  { unfold effective_length. rewrite to_int32_zero.
    rewrite <- Zmult_mod_idemp_l, to_int32_mod, Zmult_mod_idemp_l.
    reflexivity. }
  unfold trap_filter_get_normalized.
  destruct (Z.eqb_spec (effective_length L R) 0) as [H0|H0]; split.
  - split; [intros _; apply E; exact H0 | reflexivity].
  - intros Hne. exfalso. apply Hne, E, H0.
  - split; [discriminate | intros H; exfalso; apply H0, E, H].
  - intros _. eexists. reflexivity.
Qed.

Lemma normalized_quot L R (filter : trap_filter_t) :
  int32_range (2 * L) -> int32_range (2 * L * R) -> 2 * L * R <> 0 ->
  int32_range (filter_value filter) ->
  trap_filter_get_normalized L R filter =
    Ok (Z.quot (filter_value filter) (2 * L * R), filter).
Proof.
  intros H2L H2LR Hnz Hv. unfold trap_filter_get_normalized, effective_length.
  rewrite (to_int32_id (2 * L)), to_int32_id by assumption.
  destruct (Z.eqb_spec (2 * L * R) 0) as [E|_]; [contradiction|].
  rewrite to_int32_id by (apply quot_int32_range; [lia | assumption]).
  reflexivity.
Qed.

(** X16: the normalised output rounds towards zero.  For a positive
    effective length [2 * L * R] every running value strictly between
    [-2LR] and [2LR] is reported as 0, and a running value and its
    opposite are reported as opposite numbers. *)
Theorem normalized_rounds_towards_zero L R v pos count init :
  int32_range (2 * L) -> int32_range (2 * L * R) -> 0 < 2 * L * R ->
  INT32_MIN < v <= INT32_MAX ->
  let f x := {| filter_value := x; buffer_pos := pos;
                samples_processed := count; initialized := init |} in
  (- (2 * L * R) < v < 2 * L * R ->
   trap_filter_get_normalized L R (f v) = Ok (0, f v))
  /\ exists q,
       trap_filter_get_normalized L R (f v) = Ok (q, f v)
       /\ trap_filter_get_normalized L R (f (- v)) = Ok (- q, f (- v)).
Proof.
  intros H2L H2LR Hpos Hv f.
  assert (Hr : int32_range v /\ int32_range (- v))
    by (unfold int32_range, INT32_MIN, INT32_MAX in *; lia).
  destruct Hr as [Hr Hr'].
  subst f. cbv beta.
  rewrite !normalized_quot by (cbn [filter_value]; (assumption || lia)).
  cbn [filter_value]. split.
  - intros Hsmall. f_equal. f_equal.
    destruct (Z.le_gt_cases 0 v) as [Hnn|Hneg].
    + apply Z.quot_small. lia.
    + rewrite <- (Z.opp_involutive v), Z.quot_opp_l by lia.
      rewrite Z.quot_small by lia. reflexivity.
  - eexists. split; [reflexivity|]. rewrite Z.quot_opp_l by lia. reflexivity.
Qed.

Lemma normalized_rounds_towards_zero_witness :
  trap_filter_get_normalized 64 8
    {| filter_value := -1023; buffer_pos := 0; samples_processed := 0;
       initialized := true |}
  = Ok (0, {| filter_value := -1023; buffer_pos := 0; samples_processed := 0;
              initialized := true |}).
Proof.
  destruct (normalized_rounds_towards_zero 64 8 (-1023) 0 0 true) as [H _].
  - unfold int32_range, INT32_MIN, INT32_MAX. lia.
  - unfold int32_range, INT32_MIN, INT32_MAX. lia.
  - lia.
  - unfold INT32_MIN, INT32_MAX. lia.
  - apply H. lia.
Defined.

(** X17: with a rate of 1 or less the sum step reads the one sample at
    [pos] and does not move the position; it does not look at
    [buffer_size] at all. *)
Theorem sum_step_of_rate_at_most_one buffer buffer_size pos R :
  INT32_MIN < R <= 1 -> 0 <= pos < Z.of_nat (length buffer) ->
  filter_sum_step buffer buffer_size pos R = Ok (slot buffer pos, pos).
Proof.
  intros HR Hp. unfold filter_sum_step. rewrite arr_read_ok by exact Hp.
  cbn [mbind result_bind].
  rewrite to_int32_id by (unfold int32_range, INT32_MIN, INT32_MAX in *; lia).
  replace (Z.to_nat (R - 1)) with 0%nat by lia. reflexivity.
Qed.

Lemma sum_step_of_rate_at_most_one_witness :
  filter_sum_step [10; 20; 30] 0 2 (-5) = Ok (30, 2).
Proof.
  apply (sum_step_of_rate_at_most_one [10; 20; 30] 0 2 (-5)).
  - unfold INT32_MIN. lia.
  - simpl. lia.
Defined.

(** * The running value and the trapezoid *)








(** * The drain loop of the main task *)

Lemma drain_until_timeout N do_cal cali before rest : forall st errors,
  Forall (fun r => is_timeout r = false) before ->
  drain N do_cal cali st errors (before ++ rest)
  = (st' ← acquire N do_cal cali st before;
     drain N do_cal cali st'
       (errors + length (List.filter is_error before))%nat rest).
Proof.
  induction before as [|r before IH]; intros st errors Hno.
  - cbn [app acquire List.filter length mbind result_bind mret result_ret].
    rewrite Nat.add_0_r. reflexivity.
  - inversion Hno as [|r' l Hr Hrest]; subst.
    destruct r as [frame| |]; [| discriminate Hr |];
      cbn [app drain acquire on_read List.filter is_error].
    + destruct (process_frame N do_cal cali st frame) as [st1|f];
        cbn [mbind result_bind]; [apply IH; exact Hrest | reflexivity].
    + cbn [mbind result_bind mret result_ret length].
      rewrite IH by exact Hrest.
      replace (S errors + length (List.filter is_error before))%nat
        with (errors + S (length (List.filter is_error before)))%nat by lia.
      reflexivity.
Qed.

(** X19: the drain loop of the main task ends at the first empty pool and
    at nothing else: every frame before it is processed in order, every
    driver error before it is logged and skipped without leaving the
    loop, and the reads after it are left for the next wake-up. *)
Theorem drain_stops_at_first_timeout N do_cal cali st errors before rest :
  Forall (fun r => is_timeout r = false) before ->
  drain N do_cal cali st errors (before ++ ESP_ERR_TIMEOUT :: rest)
  = (st' ← acquire N do_cal cali st before;
     mret (st', (errors + length (List.filter is_error before))%nat, rest)).
Proof.
  intros Hno. rewrite drain_until_timeout by exact Hno. reflexivity.
Qed.

Lemma drain_stops_at_first_timeout_witness :
  drain 16 false (fun _ => None) (acq_init 16) 0
    ([ESP_OK [1; 2]; ESP_ERR_OTHER; ESP_OK [3]]
     ++ ESP_ERR_TIMEOUT :: [ESP_OK [4]; ESP_ERR_TIMEOUT])
  = Ok ({| circ_buf := [1; 2; 3; 0; 0; 0; 0; 0; 0; 0; 0; 0; 0; 0; 0; 0];
           circ_buf_wr := 3; s_voltage_sum := 0; s_sample_count := 3 |},
        1%nat, [ESP_OK [4]; ESP_ERR_TIMEOUT]).
Proof.
  rewrite (drain_stops_at_first_timeout 16 false (fun _ => None) (acq_init 16) 0
             [ESP_OK [1; 2]; ESP_ERR_OTHER; ESP_OK [3]]
             [ESP_OK [4]; ESP_ERR_TIMEOUT]).
  - reflexivity.
  - repeat constructor.
Defined.

(** * The running value against the from-scratch trapezoid *)














(** * The export against the sample history *)

(** C1 (as the code has it): after [k] samples were written, an export of
    [pre_count + post_count <= N] samples returns that many entries,
    entry [i] being the ring slot [(start + i) & (N - 1)] with
    [start = (W - pre_count) & (N - 1)] taken from the cursor [W].  Its
    first [pre_count] entries are the logical subsequence
    [[W - pre_count, W)] of the sample history, the samples written last,
    oldest first, across the wrap.  The [post_count] entries after them
    are the slots at and after the cursor: the oldest samples the ring
    still holds, [[W - N, W - N + post_count)], or what the slot held
    before the writes where the ring has not wrapped; they are not samples
    that follow [W]. *)
Theorem export_window_of_history N do_cal cali st reads out pre_count post_count :
  is_pow2 N = true -> wf_acq N st ->
  let samples := samples_of reads in
  let k := Z.of_nat (length samples) in
  0 <= pre_count <= Z.min k N -> 0 <= post_count ->
  pre_count + post_count <= N ->
  Z.of_nat (length out) = pre_count + post_count ->
  exists st' out',
    acquire N do_cal cali st reads = Ok st'
    /\ export_circular_buffer N st' out pre_count (pre_count + post_count)
       = Ok out'
    /\ Z.of_nat (length out') = pre_count + post_count
    /\ (let start := Z.land (to_size_t (circ_buf_wr st' - pre_count))
                            (CIRC_BUF_MASK N) in
        forall i, 0 <= i < pre_count + post_count ->
          slot out' i
          = slot (circ_buf st') (Z.land (start + i) (CIRC_BUF_MASK N)))
    /\ (forall i, 0 <= i < pre_count ->
          slot out' i = to_uint16 (nth (Z.to_nat (k - pre_count + i)) samples 0))
    /\ (forall i, 0 <= i < post_count ->
          slot out' (pre_count + i)
          = if N <=? k + i
            then to_uint16 (nth (Z.to_nat (k + i - N)) samples 0)
            else slot (circ_buf st) ((circ_buf_wr st + k + i) mod N)).
Proof.
  intros HN Hwf samples k Hpre Hpost Hsum Hout.
  destruct (is_pow2_exp N HN) as [HB _].
  destruct (acquire_ring N HN do_cal cali reads st Hwf) as (st' & E & R).
  pose proof (wf_acq_ring N _ _ _ Hwf R) as Hwf'.
  destruct Hwf as [Hl Hw].
  destruct (ring_after_contents N HN samples _ _ Hl Hw) as (Hwr & Hnew & Hold).
  fold samples in R. rewrite <- R in Hwr, Hnew, Hold. cbn [fst snd] in *.
  fold k in Hwr, Hnew, Hold.
  exists st'. eexists. split; [exact E|]. split.
  { rewrite (export_circular_buffer_copy N HN) by (try assumption; lia).
    rewrite Z.min_l, drop_ge, app_nil_r by lia. reflexivity. }
  split; [rewrite length_map, indices_length; lia|].
  split; [|split].
  - cbv zeta. intros i Hi. rewrite slot_map_indices by lia. f_equal.
    rewrite (export_start N HN), mask_mod by exact HN.
    symmetry. apply Zplus_mod_idemp_l.
  - intros i Hi. rewrite slot_map_indices by lia. rewrite Hwr.
    replace (((circ_buf_wr st + k) mod N - pre_count + i) mod N)
      with ((circ_buf_wr st + (k - pre_count + i)) mod N).
    + apply Hnew. lia.
    + replace ((circ_buf_wr st + k) mod N - pre_count + i)
        with ((circ_buf_wr st + k) mod N + (- pre_count + i)) by lia.
      rewrite Zplus_mod_idemp_l. f_equal. lia.
  - intros i Hi. rewrite slot_map_indices by lia. rewrite Hwr.
    replace ((circ_buf_wr st + k) mod N - pre_count + (pre_count + i))
      with ((circ_buf_wr st + k) mod N + i) by lia.
    rewrite Zplus_mod_idemp_l.
    destruct (Z.leb_spec N (k + i)) as [Hge|Hlt].
    + replace (circ_buf_wr st + k + i)
        with (circ_buf_wr st + (k + i - N) + 1 * N) by lia.
      rewrite Z_mod_plus_full. apply Hnew. lia.
    + replace (circ_buf_wr st + k + i)
        with (circ_buf_wr st + (k + i)) by lia.
      apply Hold. lia.
Qed.

Lemma export_window_of_history_witness :
  exists st' out',
    acquire 16 false (fun _ => None) (acq_init 16)
      [ESP_OK [0; 1; 2; 3; 4; 5; 6; 7; 8; 9; 10; 11; 12; 13; 14; 15];
       ESP_OK [16; 17; 18; 19; 20; 21; 22; 23; 24; 25; 26; 27; 28; 29; 30;
               31; 32; 33; 34; 35]] = Ok st'
    /\ export_circular_buffer 16 st' [0; 0; 0; 0; 0; 0; 0; 0] 4 (4 + 4)
       = Ok out'
    /\ slot out' 0 = 32 /\ slot out' 3 = 35
    /\ slot out' 4 = 20 /\ slot out' 7 = 23.
Proof.
  destruct (export_window_of_history 16 false (fun _ => None) (acq_init 16)
              [ESP_OK [0; 1; 2; 3; 4; 5; 6; 7; 8; 9; 10; 11; 12; 13; 14; 15];
               ESP_OK [16; 17; 18; 19; 20; 21; 22; 23; 24; 25; 26; 27; 28; 29;
                       30; 31; 32; 33; 34; 35]]
              [0; 0; 0; 0; 0; 0; 0; 0] 4 4)
    as (st' & out' & E & Ex & _ & _ & Hpre & Hpost).
  - reflexivity.
  - split; [reflexivity | simpl; lia].
  - simpl; lia.
  - lia.
  - lia.
  - reflexivity.
  - exists st', out'. split; [exact E|]. split; [exact Ex|].
    split; [exact (Hpre 0 ltac:(lia))|].
    split; [exact (Hpre 3 ltac:(lia))|].
    split; [exact (Hpost 0 ltac:(lia)) | exact (Hpost 3 ltac:(lia))].
Defined.

(** C1, counterexample: capacity 16.  After the 32 writes [0 .. 31] an
    export of 4 + 4 samples returns 28 .. 31 followed by 16 .. 19, while
    the history holds only the four samples 28 .. 31 from [W - 4] on.
    After four more writes, 32 .. 35, the same export returns 32 .. 35
    followed by 20 .. 23, while the window of four samples on each side of
    write 32, [[28, 36)], is 28 .. 35. *)
Lemma export_is_not_history_window :
  (st ← acquire 16 false (fun _ => None) (acq_init 16)
          [ESP_OK [0; 1; 2; 3; 4; 5; 6; 7; 8; 9; 10; 11; 12; 13; 14; 15;
                   16; 17; 18; 19; 20; 21; 22; 23; 24; 25; 26; 27; 28; 29;
                   30; 31]];
   export_circular_buffer 16 st [0; 0; 0; 0; 0; 0; 0; 0] 4 (4 + 4))
  = Ok [28; 29; 30; 31; 16; 17; 18; 19]
  /\ take 8 (drop (32 - 4)
       (samples_of
          [ESP_OK [0; 1; 2; 3; 4; 5; 6; 7; 8; 9; 10; 11; 12; 13; 14; 15;
                   16; 17; 18; 19; 20; 21; 22; 23; 24; 25; 26; 27; 28; 29;
                   30; 31]]))
     = [28; 29; 30; 31]
  /\ (st ← acquire 16 false (fun _ => None) (acq_init 16)
             [ESP_OK [0; 1; 2; 3; 4; 5; 6; 7; 8; 9; 10; 11; 12; 13; 14; 15;
                      16; 17; 18; 19; 20; 21; 22; 23; 24; 25; 26; 27; 28; 29;
                      30; 31];
              ESP_OK [32; 33; 34; 35]];
      export_circular_buffer 16 st [0; 0; 0; 0; 0; 0; 0; 0] 4 (4 + 4))
     = Ok [32; 33; 34; 35; 20; 21; 22; 23]
  /\ take 8 (drop (32 - 4)
       (samples_of
          [ESP_OK [0; 1; 2; 3; 4; 5; 6; 7; 8; 9; 10; 11; 12; 13; 14; 15;
                   16; 17; 18; 19; 20; 21; 22; 23; 24; 25; 26; 27; 28; 29;
                   30; 31];
           ESP_OK [32; 33; 34; 35]]))
     = [28; 29; 30; 31; 32; 33; 34; 35].
Proof. repeat split; vm_compute; reflexivity. Qed.
